(** * regexp-util: capture adapter, groups accessor and match generator

    A shallow embedding of [src/index.ts] (the functions [named], [groups]
    and [execAll]) together with the host operations they call
    ([Object.create], [Object.assign], [Object.defineProperty], the [in]
    operator, [Array.prototype.slice], [Array.prototype.forEach] and
    [RegExp.prototype.exec]), followed by the properties of the three
    helpers. *)

From Stdlib Require Import ZArith Ascii String Sorted.
From stdpp Require Import base option list gmap fin_maps strings pretty.

Local Open Scope string_scope.
Local Open Scope nat_scope.

(** ** JavaScript values and objects *)

(** Object references are heap addresses. *)
Abbreviation loc := nat (only parsing).

(** The values that flow through the three helpers.  Numbers only occur as
    match offsets, so they are integers here. *)
Inductive JsVal :=
| JUndefined
| JNull
| JBoolean (b : bool)
| JNumber (n : Z)
| JString (s : string)
| JRef (l : loc).

#[global] Instance JsVal_eq_dec : EqDecision JsVal.
Proof. solve_decision. Defined.

(** A data property with its attributes (accessor properties never occur:
    the named-captures object of the host and the capture object built here
    only hold data properties). *)
Record Property := {
  value : JsVal;
  writable : bool;
  enumerable : bool;
  configurable : bool
}.

(** The prototype chain of an object: [null], or an object's properties
    followed by the rest of its chain. *)
Inductive Proto :=
| ProtoNull
| ProtoObj (props : gmap string Property) (parent : Proto).

Record Obj := {
  proto : Proto;
  extensible : bool;
  own : gmap string Property
}.

(** The errors of the program: the two [RangeError]s it throws itself, the
    [TypeError] of a rejected property write, and whatever a callback
    throws. *)
Inductive Exn :=
| RangeError (message : string)
| TypeError
| Thrown (v : JsVal).

Inductive Completion (A : Type) :=
| Normal (a : A)
| Throw (e : Exn).
Arguments Normal {A} a.
Arguments Throw {A} e.

(** One recorded invocation of the wrapped callback: its three arguments. *)
Definition Call : Type := JsVal * JsVal * JsVal.

(** The state threaded through the code: the object heap, and the log of
    the callback invocations made so far. *)
Record State := {
  heap : gmap loc Obj;
  calls : list Call
}.

Definition set_heap (f : gmap loc Obj → gmap loc Obj) (st : State) : State :=
  {| heap := f (heap st); calls := calls st |}.

(** ** A state and exception monad *)

Definition M (A : Type) : Type := State → Completion A * State.

#[global] Instance M_ret : MRet M := λ A a st, (Normal a, st).
#[global] Instance M_bind : MBind M := λ A B f m st,
  match m st with
  | (Normal a, st') => f a st'
  | (Throw e, st') => (Throw e, st')
  end.

Definition throw {A} (e : Exn) : M A := λ st, (Throw e, st).

(** ** Host operations on objects *)

(** [ToPropertyKey] of an array index: its canonical decimal form. *)
Definition ToPropertyKey (index : nat) : string := pretty index.

Definition typeof (v : JsVal) : string :=
  match v with
  | JUndefined => "undefined"
  | JNull => "object"
  | JBoolean _ => "boolean"
  | JNumber _ => "number"
  | JString _ => "string"
  | JRef _ => "object"
  end.

Fixpoint chain_lookup (p : Proto) (P : string) : option Property :=
  match p with
  | ProtoNull => None
  | ProtoObj props parent =>
      match props !! P with
      | Some x => Some x
      | None => chain_lookup parent P
      end
  end.

(** [P in O]: an own property, or one found along the prototype chain. *)
Definition has_property (O : Obj) (P : string) : bool :=
  match own O !! P with
  | Some _ => true
  | None => match chain_lookup (proto O) P with Some _ => true | None => false end
  end.

Definition HasProperty (O : loc) (P : string) : M bool := λ st,
  match heap st !! O with
  | Some o => (Normal (has_property o P), st)
  | None => (Throw TypeError, st)
  end.

(** [Object.create(proto)]: a fresh, extensible object without properties. *)
Definition Object_create (p : Proto) : M loc := λ st,
  let l := fresh (dom (heap st)) in
  (Normal l,
   set_heap (insert l {| proto := p; extensible := true; own := ∅ |}) st).

(** A property descriptor as passed to [Object.defineProperty]; an absent
    field is [None]. *)
Record Descriptor := {
  d_value : option JsVal;
  d_writable : option bool;
  d_enumerable : option bool;
  d_configurable : option bool
}.

(** [ValidateAndApplyPropertyDescriptor] for data properties: the property
    after the definition, or [None] when the definition is rejected. *)
Definition apply_descriptor (ext : bool) (current : option Property)
    (Desc : Descriptor) : option Property :=
  match current with
  | None =>
      if ext then
        Some {| value := default JUndefined (d_value Desc);
                writable := default false (d_writable Desc);
                enumerable := default false (d_enumerable Desc);
                configurable := default false (d_configurable Desc) |}
      else None
  | Some cur =>
      let rejected :=
        negb (configurable cur) &&
        (bool_decide (d_configurable Desc = Some true)
         || match d_enumerable Desc with
            | Some e => negb (eqb e (enumerable cur))
            | None => false
            end
         || (negb (writable cur) &&
             (bool_decide (d_writable Desc = Some true)
              || match d_value Desc with
                 | Some v => negb (bool_decide (v = value cur))
                 | None => false
                 end))) in
      if rejected then None
      else
        Some {| value := default (value cur) (d_value Desc);
                writable := default (writable cur) (d_writable Desc);
                enumerable := default (enumerable cur) (d_enumerable Desc);
                configurable := default (configurable cur) (d_configurable Desc) |}
  end.

(** [Object.defineProperty(O, P, Desc)]; a rejected definition throws a
    [TypeError]. *)
Definition Object_defineProperty (O : loc) (P : string) (Desc : Descriptor)
    : M unit := λ st,
  match heap st !! O with
  | Some o =>
      match apply_descriptor (extensible o) (own o !! P) Desc with
      | Some p =>
          (Normal (),
           set_heap (insert O {| proto := proto o; extensible := extensible o;
                                 own := <[P := p]> (own o) |}) st)
      | None => (Throw TypeError, st)
      end
  | None => (Throw TypeError, st)
  end.

Definition data_property (v : JsVal) : Property :=
  {| value := v; writable := true; enumerable := true; configurable := true |}.

(** [OrdinarySet] on data properties, as [Object.assign] performs it (in
    strict mode: a failed write is [None], which the caller throws). *)
Definition set_property (o : Obj) (P : string) (V : JsVal) : option Obj :=
  match own o !! P with
  | Some cur =>
      if writable cur then
        Some {| proto := proto o; extensible := extensible o;
                own := <[P := {| value := V; writable := true;
                                 enumerable := enumerable cur;
                                 configurable := configurable cur |}]> (own o) |}
      else None
  | None =>
      let blocked :=
        match chain_lookup (proto o) P with
        | Some inherited => negb (writable inherited)
        | None => false
        end in
      if blocked || negb (extensible o) then None
      else Some {| proto := proto o; extensible := extensible o;
                   own := <[P := data_property V]> (own o) |}
  end.

Definition Set_ (O : loc) (P : string) (V : JsVal) : M unit := λ st,
  match heap st !! O with
  | Some o =>
      match set_property o P V with
      | Some o' => (Normal (), set_heap (insert O o') st)
      | None => (Throw TypeError, st)
      end
  | None => (Throw TypeError, st)
  end.

(** The own enumerable properties of [ToObject(source)] and their values,
    as [Object.assign] reads them: nothing for [undefined], [null], a
    number or a boolean, the indexed characters for a string, and the
    enumerable own properties for an object. *)
Definition own_enumerable (source : JsVal) (h : gmap loc Obj)
    : gmap string JsVal :=
  match source with
  | JRef l =>
      match h !! l with
      | Some o => value <$> filter (λ kp, enumerable kp.2 = true) (own o)
      | None => ∅
      end
  | JString s =>
      list_to_map
        (imap (λ i c, (ToPropertyKey i, JString (String c EmptyString)))
              (list_ascii_of_string s))
  | _ => ∅
  end.

(** [Object.assign(target, source)]: each own enumerable property of the
    source is written to the target with [Set_]; a rejected write throws.
    The keys are distinct, and the fold visits each of them once. *)
Definition Object_assign (target : loc) (source : JsVal) : M unit := λ st,
  map_fold (λ P V (done : M unit), done ;; Set_ target P V) (mret ())
           (own_enumerable source (heap st)) st.

(** ** Host operations on arrays *)

(** [args[i]]: [undefined] outside the array. *)
Definition array_get (args : list JsVal) (i : Z) : JsVal :=
  if (i <? 0)%Z then JUndefined else nth (Z.to_nat i) args JUndefined.

(** [Array.prototype.slice(start, end)], with negative indices counted from
    the end. *)
Definition Array_slice {A} (l : list A) (start stop : Z) : list A :=
  let len := Z.of_nat (length l) in
  let rel i := if (i <? 0)%Z then Z.max (len + i) 0 else Z.min i len in
  let k := rel start in
  let final := rel stop in
  take (Z.to_nat (final - k)) (drop (Z.to_nat k) l).

(** [Array.prototype.forEach]: the callback receives each value and its
    index, in order; an exception stops the iteration. *)
Fixpoint forEach_from {A} (l : list A) (index : nat)
    (callbackfn : A → nat → M unit) : M unit :=
  match l with
  | [] => mret ()
  | value :: l' =>
      callbackfn value index ;; forEach_from l' (S index) callbackfn
  end.

Definition forEach {A} (l : list A) (callbackfn : A → nat → M unit) : M unit :=
  forEach_from l 0 callbackfn.

(** ** [named]: the capture adapter *)

Section named.

(** The wrapped callback: it receives the capture object, the match
    offset and the original string, may read and write the heap, and
    returns a string or throws. *)
Variable replacer :
  JsVal → JsVal → JsVal → gmap loc Obj → Completion string * gmap loc Obj.

(** The call [replacer(captures, index, original)], recorded in the call
    log. *)
Definition call_replacer (captures index original : JsVal) : M string :=
  λ st,
  let '(r, h) := replacer captures index original (heap st) in
  (r, {| heap := h; calls := calls st ++ [(captures, index, original)] |}).

(** [{ configurable: true, writable: true, value }] *)
Definition capture_descriptor (value : JsVal) : Descriptor :=
  {| d_value := Some value; d_writable := Some true;
     d_enumerable := None; d_configurable := Some true |}.

Definition collision_message (index : nat) : string :=
  "Numeric name " +:+ pretty index +:+ " used as a regexp capture name".

Definition namedCapturesWrapper (args : list JsVal) : M string :=
  let length := Z.of_nat (List.length args) in
  let named := array_get args (length - 1) in
  captures ← Object_create ProtoNull;
  if String.eqb (typeof named) "string" then
    forEach (Array_slice args 0 (-2)) (λ value index,
      Object_defineProperty captures (ToPropertyKey index)
                            (capture_descriptor value)) ;;
    call_replacer (JRef captures) (array_get args (length - 2)) named
  else
    Object_assign captures named ;;
    forEach (Array_slice args 0 (-3)) (λ value index,
      present ← HasProperty captures (ToPropertyKey index);
      if (present : bool) then
        throw (RangeError (collision_message index))
      else
        Object_defineProperty captures (ToPropertyKey index)
                              (capture_descriptor value)) ;;
    call_replacer (JRef captures) (array_get args (length - 3))
                  (array_get args (length - 2)).

Definition named : list JsVal → M string := namedCapturesWrapper.

End named.

(** The arguments [String.prototype.replace] passes to its replacer
    function for one match: the matched substring, the positional captures
    (each a string, or [undefined] for a group that did not take part), the
    offset of the match, the string searched and, when the pattern has
    named groups, a reference to the named-captures object. *)
Record Replacement := {
  rm_matched : string;
  rm_captures : list JsVal;
  rm_position : Z;
  rm_subject : string;
  rm_groups : option loc
}.

(** The positional values: the match, at index 0, then the captures. *)
Definition positional_values (m : Replacement) : list JsVal :=
  JString (rm_matched m) :: rm_captures m.

Definition replace_args (m : Replacement) : list JsVal :=
  positional_values m
    ++ [JNumber (rm_position m); JString (rm_subject m)]
    ++ match rm_groups m with Some g => [JRef g] | None => [] end.

(** ** [groups]: the accessor of named captures *)

(** The result of [RegExp.prototype.exec] or [String.prototype.match]: the
    matched substring and the positional captures as elements, and the
    properties [index], [input] and [groups] ([undefined], or a reference
    to the named-captures object). *)
Record RegExpExecArray := {
  elements : list JsVal;
  index : nat;
  input : string;
  r_groups : JsVal
}.

Definition missing_groups_message : string :=
  "Attempted to read the named captures of a Regexp without named captures".

(** [result] is [None] for [null]. *)
Definition groups (result : option RegExpExecArray) : M JsVal :=
  match result with
  | None => mret JNull
  | Some result =>
      if decide (r_groups result = JUndefined) then
        throw (RangeError missing_groups_message)
      else mret (r_groups result)
  end.

(** ** [execAll]: the generator of matches *)

(** What the pattern matcher of the host reports for a match that starts
    at a given position: where it ends, the positional captures and the
    [groups] value. *)
Record MatchState := {
  endIndex : nat;
  captures : list JsVal;
  named_groups : JsVal
}.

(** A regular expression object: its matcher ([matcher S i] tries to
    match [S] at position [i] exactly), the [global] and [sticky] flags and
    the mutable [lastIndex] cursor. *)
Record RegExp := {
  matcher : string → nat → option MatchState;
  global : bool;
  sticky : bool;
  lastIndex : nat
}.

Definition set_lastIndex (i : nat) (R : RegExp) : RegExp :=
  {| matcher := matcher R; global := global R; sticky := sticky R;
     lastIndex := i |}.

(** The number of positions [exec] tries from [lastIndex]: the positions
    up to the length of the target, and for a sticky pattern the first of
    them only. *)
Definition exec_tries (sticky : bool) (length lastIndex : nat) : nat :=
  if sticky then Nat.min 1 (length + 1 - lastIndex)
  else length + 1 - lastIndex.

(** The search loop of [RegExpBuiltinExec]: try the positions [pos],
    [pos + 1], ... ([n] of them) and stop at the first match. *)
Fixpoint search (m : string → nat → option MatchState) (S : string)
    (pos n : nat) : option (nat * MatchState) :=
  match n with
  | 0 => None
  | S n' =>
      match m S pos with
      | Some r => Some (pos, r)
      | None => search m S (Datatypes.S pos) n'
      end
  end.

Definition exec_result (S : string) (i : nat) (r : MatchState)
    : RegExpExecArray :=
  {| elements := JString (substring i (endIndex r - i) S) :: captures r;
     index := i;
     input := S;
     r_groups := named_groups r |}.

(** [RegExp.prototype.exec]: the search starts at [lastIndex] for a global
    or sticky pattern and at 0 otherwise; it covers the positions up to
    the length of [S], and for a sticky pattern the starting position
    only.  A global or sticky pattern has its [lastIndex] moved to the end
    of the match, or back to 0 when there is none. *)
Definition exec (R : RegExp) (S : string)
    : option RegExpExecArray * RegExp :=
  let length := String.length S in
  let lastIndex := if global R || sticky R then lastIndex R else 0 in
  match search (matcher R) S lastIndex
               (exec_tries (sticky R) length lastIndex) with
  | None => (None, if global R || sticky R then set_lastIndex 0 R else R)
  | Some (i, r) =>
      (Some (exec_result S i r),
       if global R || sticky R then set_lastIndex (endIndex r) R else R)
  end.

(** Where the generator returned by [execAll] is suspended. *)
Inductive GeneratorState :=
| SuspendedStart
| SuspendedYield
| Completed.

(** One [next()] on the generator of [execAll(regexp, target)]: the body
    runs from the point of suspension up to the next [yield] (a result) or
    [return] ([None]).  The regular expression object is shared with the
    caller, so its state goes in and out. *)
Definition execAll_next (target : string) (s : GeneratorState)
    (regexp : RegExp) : option RegExpExecArray * GeneratorState * RegExp :=
  let iteration (regexp : RegExp) :=
    let '(result, regexp) := exec regexp target in
    match result with
    | None => (None, Completed, regexp)
    | Some result => (Some result, SuspendedYield, regexp)
    end in
  match s with
  | SuspendedStart => iteration regexp
  | SuspendedYield =>
      if negb (global regexp) then (None, Completed, regexp)
      else iteration regexp
  | Completed => (None, Completed, regexp)
  end.

(** Pulling the generator until it is done, as [for ... of] or a spread
    does: the results in the order they were yielded and the final state of
    the regular expression; [None] when [fuel] pulls did not reach the
    end. *)
Fixpoint execAll_run (fuel : nat) (target : string) (s : GeneratorState)
    (regexp : RegExp) : option (list RegExpExecArray * RegExp) :=
  match fuel with
  | 0 => None
  | S fuel' =>
      match execAll_next target s regexp with
      | (None, _, regexp') => Some ([], regexp')
      | (Some result, s', regexp') =>
          match execAll_run fuel' target s' regexp' with
          | Some (results, regexp'') => Some (result :: results, regexp'')
          | None => None
          end
      end
  end.

Definition execAll (fuel : nat) (regexp : RegExp) (target : string)
    : option (list RegExpExecArray * RegExp) :=
  execAll_run fuel target SuspendedStart regexp.

(** The first [n] pulls on the generator, whether or not they reach its
    end: the results yielded so far, where the generator is suspended and
    the state of the regular expression. *)
Fixpoint execAll_pulls (n : nat) (target : string) (s : GeneratorState)
    (regexp : RegExp) : list RegExpExecArray * GeneratorState * RegExp :=
  match n with
  | 0 => ([], s, regexp)
  | S n' =>
      match execAll_next target s regexp with
      | (None, s', regexp') => ([], s', regexp')
      | (Some result, s', regexp') =>
          let '(results, s'', regexp'') :=
            execAll_pulls n' target s' regexp' in
          (result :: results, s'', regexp'')
      end
  end.

(** The occurrences of a pattern in a target, as the specification counts
    them: scanning from the start of the target, each search begins where
    the previous occurrence ended, and one position further after an empty
    occurrence.  [fuel] bounds the number of occurrences. *)
Fixpoint occurrences_from (m : string → nat → option MatchState)
    (S : string) (fuel pos : nat) : list RegExpExecArray :=
  match fuel with
  | 0 => []
  | Datatypes.S fuel' =>
      match search m S pos (String.length S + 1 - pos) with
      | None => []
      | Some (i, r) =>
          exec_result S i r
            :: occurrences_from m S fuel'
                 (if (endIndex r <=? i)%nat then Datatypes.S i else endIndex r)
      end
  end.

(** A target of length [n] has at most [n + 1] occurrences. *)
Definition occurrences (regexp : RegExp) (target : string)
    : list RegExpExecArray :=
  occurrences_from (matcher regexp) target (Datatypes.S (String.length target)) 0.

(** The matcher of a pattern that is one literal string. *)
Definition literal (lit : string) : string → nat → option MatchState :=
  λ S i,
  if String.eqb (substring i (String.length lit) S) lit then
    Some {| endIndex := i + String.length lit; captures := [];
            named_groups := JUndefined |}
  else None.

(** ** The capture object, as a value *)

(** What [Object.defineProperty] creates for a positional capture: the
    descriptor leaves [enumerable] out, so the property is not
    enumerable. *)
Definition positional_property (v : JsVal) : Property :=
  {| value := v; writable := true; enumerable := false; configurable := true |}.

(** The properties of an object after the values of [l] have been defined
    on it under the keys [index], [index + 1], ... *)
Fixpoint define_all (l : list JsVal) (index : nat)
    (props : gmap string Property) : gmap string Property :=
  match l with
  | [] => props
  | v :: l' =>
      define_all l' (S index)
                 (<[ToPropertyKey index := positional_property v]> props)
  end.

(** The capture object for the positional values [l] and the named entries
    [entries]. *)
Definition capture_object (l : list JsVal) (entries : gmap string JsVal)
    : Obj :=
  {| proto := ProtoNull; extensible := true;
     own := define_all l 0 (data_property <$> entries) |}.

(** The named entries of a replacement in a heap. *)
Definition named_entries (m : Replacement) (h : gmap loc Obj)
    : gmap string JsVal :=
  match rm_groups m with
  | Some g => own_enumerable (JRef g) h
  | None => ∅
  end.

(** ** Sample inputs *)

(** The named-captures object of a match of [(?<year>\d{4})-\d{2}]. *)
Definition sample_groups : Obj :=
  {| proto := ProtoNull; extensible := true;
     own := {[ "year" := data_property (JString "2020") ]} |}.

(** An object whose only key is the decimal form of the index 1. *)
Definition colliding_groups : Obj :=
  {| proto := ProtoNull; extensible := true;
     own := {[ "1" := data_property (JString "2020") ]} |}.

Definition sample_state (g : Obj) : State :=
  {| heap := {[ 0 := g ]}; calls := [] |}.

Definition sample_replacement (groups : option loc) : Replacement :=
  {| rm_matched := "2020-01"; rm_captures := [JString "2020"];
     rm_position := 0; rm_subject := "2020-01,2021-02";
     rm_groups := groups |}.

(** A replacer that returns [captures[1]]. *)
Definition sample_replacer (captures index original : JsVal)
    (h : gmap loc Obj) : Completion string * gmap loc Obj :=
  match captures with
  | JRef c =>
      match h !! c ≫= λ o, own o !! "1" with
      | Some {| value := JString s |} => (Normal s, h)
      | _ => (Throw TypeError, h)
      end
  | _ => (Throw TypeError, h)
  end.

(** The state after the wrapper has run on the sample match with
    [sample_replacer]. *)
Definition sample_final_state : State :=
  {| heap := <[1 := capture_object [JString "2020-01"; JString "2020"]
                                   {[ "year" := JString "2020" ]}]>
               {[ 0 := sample_groups ]};
     calls := [(JRef 1, JNumber 0, JString "2020-01,2021-02")] |}.

Definition sample_regexp (lit : string) (g : bool) (cursor : nat) : RegExp :=
  {| matcher := literal lit; global := g; sticky := false;
     lastIndex := cursor |}.

(** The same pattern with the sticky flag. *)
Definition sample_sticky_regexp (lit : string) (g : bool) (cursor : nat)
    : RegExp :=
  {| matcher := literal lit; global := g; sticky := true;
     lastIndex := cursor |}.

(** ** The build script: the new name of a compiled file *)

(** Whether [/\.js($|\.)/] matches at the start of [s]: the characters
    ".js", followed by the end of the string or by a dot. *)
Definition js_extension_here (s : string) : bool :=
  match s with
  | String a (String b (String c rest)) =>
      Ascii.eqb a "." && Ascii.eqb b "j" && Ascii.eqb c "s"
      && match rest with
         | EmptyString => true
         | String d _ => Ascii.eqb d "."
         end
  | _ => false
  end.

(** [name.replace(/\.js($|\.)/, '.mjs$1')]: the pattern is not global, so
    only its leftmost match is replaced; the group is the dot that
    follows, or nothing, and the replacement puts it back. *)
Fixpoint rename_js (name : string) : string :=
  if js_extension_here name then
    match name with
    | String _ (String _ (String _ rest)) => ".mjs" +:+ rest
    | _ => name
    end
  else
    match name with
    | EmptyString => EmptyString
    | String c name' => String c (rename_js name')
    end.

(** * Properties *)

(** ** Keys of array indices *)

Lemma ToPropertyKey_inj i j : ToPropertyKey i = ToPropertyKey j → i = j.
Proof. unfold ToPropertyKey. apply (inj pretty). Qed.

Lemma define_all_lookup_other l : ∀ idx props k,
  (∀ i, i < length l → k ≠ ToPropertyKey (idx + i)) →
  define_all l idx props !! k = props !! k.
Proof.
  induction l as [|v l IH]; intros idx props k Hk; simpl; [done|].
  rewrite IH.
  - rewrite lookup_insert_ne; [done|].
    intros Heq. apply (Hk 0); [simpl; lia|]. by rewrite Nat.add_0_r.
  - intros i Hi. replace (S idx + i) with (idx + S i) by lia.
    apply Hk. simpl. lia.
Qed.

Lemma define_all_lookup_index l : ∀ idx props i v,
  l !! i = Some v →
  define_all l idx props !! ToPropertyKey (idx + i)
  = Some (positional_property v).
Proof.
  induction l as [|w l IH]; intros idx props i v Hi; [done|].
  destruct i as [|i]; simpl in *.
  - injection Hi as ->. rewrite Nat.add_0_r.
    rewrite define_all_lookup_other; [apply lookup_insert_eq|].
    intros i _ Heq. apply ToPropertyKey_inj in Heq. lia.
  - replace (idx + S i) with (S idx + i) by lia. by apply IH.
Qed.

Lemma define_all_lookup l idx props k :
  define_all l idx props !! k =
  match list_find (λ i, k = ToPropertyKey (idx + i)) (seq 0 (length l)) with
  | Some (i, _) => positional_property <$> l !! i
  | None => props !! k
  end.
Proof.
  destruct (list_find _ _) as [[i j]|] eqn:Hfind.
  - apply list_find_Some in Hfind as (Hj & -> & _).
    apply lookup_seq in Hj as [-> Hlt]. simpl in *.
    destruct (lookup_lt_is_Some_2 l i Hlt) as [v Hv].
    rewrite Hv. simpl. by apply define_all_lookup_index.
  - apply define_all_lookup_other. intros i Hi ->.
    apply list_find_None in Hfind.
    rewrite Forall_forall in Hfind.
    apply (Hfind i); [|done]. apply elem_of_seq. lia.
Qed.

Lemma define_all_is_Some l idx props k :
  is_Some (define_all l idx props !! k) ↔
  is_Some (props !! k) ∨ ∃ i, i < length l ∧ k = ToPropertyKey (idx + i).
Proof.
  rewrite define_all_lookup.
  destruct (list_find _ _) as [[i j]|] eqn:Hfind.
  - apply list_find_Some in Hfind as (Hj & -> & _).
    apply lookup_seq in Hj as [-> Hlt]. simpl in *.
    destruct (lookup_lt_is_Some_2 l i Hlt) as [v Hv]. rewrite Hv.
    split; [intros _; right; eauto|intros _; simpl; eauto].
  - apply list_find_None in Hfind. rewrite Forall_forall in Hfind.
    split; [by left|]. intros [|(i & Hi & ->)]; [done|].
    exfalso. apply (Hfind i); [|done]. apply elem_of_seq. lia.
Qed.

(** ** Sequencing *)

Lemma bind_normal {A B} (m : M A) (f : A → M B) st a st' :
  m st = (Normal a, st') → (m ≫= f) st = f a st'.
Proof. intros H. unfold mbind, M_bind. by rewrite H. Qed.

Lemma bind_throw {A B} (m : M A) (f : A → M B) st e st' :
  m st = (Throw e, st') → (m ≫= f) st = (Throw e, st').
Proof. intros H. unfold mbind, M_bind. by rewrite H. Qed.

(** ** The host operations on the capture object *)

Lemma set_heap_id c o st :
  heap st !! c = Some o → set_heap (insert c o) st = st.
Proof.
  intros H. destruct st as [h cs]. unfold set_heap. simpl in *.
  by rewrite insert_id.
Qed.

Lemma set_heap_insert_insert c o o' st :
  set_heap (insert c o') (set_heap (insert c o) st)
  = set_heap (insert c o') st.
Proof. unfold set_heap. simpl. by rewrite insert_insert_eq. Qed.

Lemma heap_set_heap f st : heap (set_heap f st) = f (heap st).
Proof. done. Qed.

Lemma heap_set_heap_insert c o st :
  heap (set_heap (insert c o) st) !! c = Some o.
Proof. simpl. apply lookup_insert_eq. Qed.

Lemma own_enumerable_alloc source c o (h : gmap nat Obj) :
  h !! c = None → own o = ∅ →
  own_enumerable source (<[c := o]> h) = own_enumerable source h.
Proof.
  intros Hc Ho. destruct source as [| | | | |l]; try done. simpl.
  destruct (decide (c = l)) as [->|Hne].
  - rewrite lookup_insert_eq, Hc, Ho.
    by rewrite map_filter_empty, fmap_empty.
  - by rewrite lookup_insert_ne.
Qed.

Lemma Set_fresh c P V st o :
  heap st !! c = Some o → proto o = ProtoNull → extensible o = true →
  own o !! P = None →
  Set_ c P V st =
  (Normal (),
   set_heap (insert c {| proto := ProtoNull; extensible := true;
                         own := <[P := data_property V]> (own o) |}) st).
Proof.
  intros Hc Hp He HP. unfold Set_, set_property.
  by rewrite Hc, HP, Hp, He.
Qed.

Lemma Object_assign_empty c source st :
  heap st !! c = Some {| proto := ProtoNull; extensible := true; own := ∅ |} →
  Object_assign c source st =
  (Normal (),
   set_heap (insert c {| proto := ProtoNull; extensible := true;
                         own := data_property
                                  <$> own_enumerable source (heap st) |}) st).
Proof.
  intros Hc. unfold Object_assign.
  generalize (own_enumerable source (heap st)).
  apply (map_fold_weak_ind (λ (r : M unit) (m : gmap string JsVal),
    r st = (Normal (),
            set_heap (insert c {| proto := ProtoNull; extensible := true;
                                  own := data_property <$> m |}) st))).
  - rewrite fmap_empty. by rewrite set_heap_id.
  - intros P V m r Hm IH. unfold mbind, M_bind. rewrite IH.
    erewrite Set_fresh;
      [|apply heap_set_heap_insert|done|done|simpl; by rewrite lookup_fmap, Hm].
    simpl. by rewrite set_heap_insert_insert, fmap_insert.
Qed.

Lemma define_fresh c k v st o :
  heap st !! c = Some o → extensible o = true → own o !! k = None →
  Object_defineProperty c k (capture_descriptor v) st =
  (Normal (),
   set_heap (insert c {| proto := proto o; extensible := true;
                         own := <[k := positional_property v]> (own o) |}) st).
Proof.
  intros Hc He Hk. unfold Object_defineProperty.
  by rewrite Hc, Hk, He.
Qed.

(** The loop of the branch without named captures. *)
Lemma forEach_define c l : ∀ idx st o,
  heap st !! c = Some o → extensible o = true →
  (∀ i, i < length l → own o !! ToPropertyKey (idx + i) = None) →
  forEach_from l idx (λ value index,
    Object_defineProperty c (ToPropertyKey index) (capture_descriptor value)) st
  = (Normal (),
     set_heap (insert c {| proto := proto o; extensible := true;
                           own := define_all l idx (own o) |}) st).
Proof.
  induction l as [|v l IH]; intros idx st o Hc He Hfree; simpl.
  - unfold mret, M_ret. rewrite set_heap_id; [done|].
    rewrite Hc. f_equal. destruct o; simpl in *; by subst.
  - unfold mbind, M_bind.
    rewrite (define_fresh c _ v st o Hc He).
    2:{ specialize (Hfree 0). rewrite Nat.add_0_r in Hfree.
        apply Hfree. simpl. lia. }
    erewrite IH; [|apply heap_set_heap_insert|done|].
    + by rewrite set_heap_insert_insert.
    + intros i Hi. simpl. rewrite lookup_insert_ne.
      * rewrite <- Nat.add_succ_r. apply Hfree. simpl. lia.
      * intros Heq. apply ToPropertyKey_inj in Heq. lia.
Qed.

Lemma HasProperty_own c k st o :
  heap st !! c = Some o → proto o = ProtoNull →
  HasProperty c k st = (Normal (bool_decide (is_Some (own o !! k))), st).
Proof.
  intros Hc Hp. unfold HasProperty, has_property. rewrite Hc, Hp. simpl.
  destruct (own o !! k) eqn:Hk.
  - by rewrite bool_decide_eq_true_2.
  - rewrite bool_decide_eq_false_2; [done|]. by intros [? ?].
Qed.

(** The loop of the branch with named captures, when no index is a key of
    the object yet. *)
Lemma forEach_checked_free c l : ∀ idx st o,
  heap st !! c = Some o → proto o = ProtoNull → extensible o = true →
  (∀ i, i < length l → own o !! ToPropertyKey (idx + i) = None) →
  forEach_from l idx (λ value index,
    present ← HasProperty c (ToPropertyKey index);
    if (present : bool) then
      throw (RangeError (collision_message index))
    else
      Object_defineProperty c (ToPropertyKey index)
                            (capture_descriptor value)) st
  = (Normal (),
     set_heap (insert c {| proto := ProtoNull; extensible := true;
                           own := define_all l idx (own o) |}) st).
Proof.
  induction l as [|v l IH]; intros idx st o Hc Hp He Hfree; simpl.
  - unfold mret, M_ret. rewrite set_heap_id; [done|].
    rewrite Hc. f_equal. destruct o; simpl in *; by subst.
  - assert (own o !! ToPropertyKey idx = None) as H0.
    { specialize (Hfree 0). rewrite Nat.add_0_r in Hfree.
      apply Hfree. simpl. lia. }
    unfold mbind, M_bind.
    rewrite (HasProperty_own c _ st o Hc Hp), H0.
    rewrite bool_decide_eq_false_2 by (by intros [? ?]).
    rewrite (define_fresh c _ v st o Hc He H0), Hp.
    erewrite IH; [|apply heap_set_heap_insert|done|done|].
    + by rewrite set_heap_insert_insert.
    + intros i Hi. simpl. rewrite lookup_insert_ne.
      * rewrite <- Nat.add_succ_r. apply Hfree. simpl. lia.
      * intros Heq. apply ToPropertyKey_inj in Heq. lia.
Qed.

(** The same loop when the index [idx + j] is the first one that is a key
    of the object: the loop throws there. *)
Lemma forEach_checked_collision c l : ∀ idx st o j,
  heap st !! c = Some o → proto o = ProtoNull → extensible o = true →
  j < length l →
  (∀ i, i < j → own o !! ToPropertyKey (idx + i) = None) →
  is_Some (own o !! ToPropertyKey (idx + j)) →
  forEach_from l idx (λ value index,
    present ← HasProperty c (ToPropertyKey index);
    if (present : bool) then
      throw (RangeError (collision_message index))
    else
      Object_defineProperty c (ToPropertyKey index)
                            (capture_descriptor value)) st
  = (Throw (RangeError (collision_message (idx + j))),
     set_heap (insert c {| proto := ProtoNull; extensible := true;
                           own := define_all (take j l) idx (own o) |}) st).
Proof.
  induction l as [|v l IH]; intros idx st o j Hc Hp He Hj Hfree Hcol;
    simpl in *; [lia|].
  unfold mbind, M_bind.
  rewrite (HasProperty_own c _ st o Hc Hp).
  destruct j as [|j].
  - rewrite Nat.add_0_r in *.
    rewrite bool_decide_eq_true_2 by done. unfold throw. simpl.
    rewrite set_heap_id; [done|].
    rewrite Hc. f_equal. destruct o; simpl in *; by subst.
  - assert (own o !! ToPropertyKey idx = None) as H0.
    { specialize (Hfree 0). rewrite Nat.add_0_r in Hfree. apply Hfree. lia. }
    rewrite H0. rewrite bool_decide_eq_false_2 by (by intros [? ?]).
    rewrite (define_fresh c _ v st o Hc He H0), Hp.
    erewrite (IH _ _ _ j); [|apply heap_set_heap_insert|done|done|lia| |].
    + rewrite set_heap_insert_insert. simpl.
      by rewrite <- ?Nat.add_succ_r.
    + intros i Hi. simpl. rewrite lookup_insert_ne.
      * rewrite <- Nat.add_succ_r. apply Hfree. lia.
      * intros Heq. apply ToPropertyKey_inj in Heq. lia.
    + simpl. rewrite lookup_insert_ne.
      * by rewrite <- ?Nat.add_succ_r.
      * intros Heq. apply ToPropertyKey_inj in Heq. lia.
Qed.

(** Either no index below [n] is a key of a map, or there is a first one
    that is. *)
Lemma first_collision {A} (props : gmap string A) n :
  (∀ i, i < n → props !! ToPropertyKey i = None)
  ∨ ∃ j, j < n ∧ (∀ i, i < j → props !! ToPropertyKey i = None)
         ∧ is_Some (props !! ToPropertyKey j).
Proof.
  induction n as [|n [IH|(j & Hj & Hfree & Hcol)]].
  - left. intros i Hi. lia.
  - destruct (props !! ToPropertyKey n) eqn:Hn.
    + right. exists n. split; [lia|]. split; [done|]. by rewrite Hn.
    + left. intros i Hi. destruct (decide (i = n)) as [->|]; [done|].
      apply IH. lia.
  - right. exists j. split; [lia|]. done.
Qed.

(** ** Arrays of arguments *)

Lemma array_get_end pre suf k :
  k < length suf →
  array_get (pre ++ suf)
            (Z.of_nat (length (pre ++ suf)) - Z.of_nat (length suf - k))
  = nth k suf JUndefined.
Proof.
  intros Hk. unfold array_get. rewrite length_app.
  destruct (Z.ltb_spec (Z.of_nat (length pre + length suf)
                        - Z.of_nat (length suf - k)) 0) as [Hneg|_]; [lia|].
  replace (Z.to_nat _) with (length pre + k) by lia.
  rewrite app_nth2 by lia. f_equal. lia.
Qed.

Lemma array_get_last args v :
  last args = Some v →
  array_get args (Z.of_nat (length args) - 1) = v.
Proof.
  intros Hlast. apply last_Some in Hlast as [pre ->].
  apply (array_get_end pre [v] 0). simpl. lia.
Qed.

Lemma Array_slice_end {A} (pre suf : list A) :
  0 < length suf →
  Array_slice (pre ++ suf) 0 (- Z.of_nat (length suf)) = pre.
Proof.
  intros Hsuf. unfold Array_slice. rewrite length_app.
  destruct (Z.ltb_spec (- Z.of_nat (length suf)) 0) as [_|Hpos]; [|lia].
  rewrite ?Z.ltb_irrefl, ?(Z.min_l 0) by lia.
  change (Z.to_nat 0) with 0. rewrite drop_0.
  rewrite Z.sub_0_r, Z.max_l by lia.
  replace (Z.to_nat (_ + _)) with (length pre) by lia.
  apply take_app_length.
Qed.

(** ** The two branches of the wrapper *)

Section wrapper.

Variable replacer :
  JsVal → JsVal → JsVal → gmap loc Obj → Completion string * gmap loc Obj.

Lemma fresh_heap (h : gmap nat Obj) : h !! fresh (dom h) = None.
Proof. apply not_elem_of_dom. apply is_fresh. Qed.

(** Without named captures the wrapper builds the capture object from the
    positional arguments alone and calls the replacer. *)
Lemma wrapper_string args s st :
  last args = Some (JString s) →
  namedCapturesWrapper replacer args st =
  call_replacer replacer (JRef (fresh (dom (heap st))))
    (array_get args (Z.of_nat (length args) - 2)) (JString s)
    (set_heap (insert (fresh (dom (heap st)))
                      (capture_object (Array_slice args 0 (-2)) ∅)) st).
Proof.
  intros Hlast. unfold namedCapturesWrapper.
  rewrite (array_get_last _ _ Hlast). simpl typeof.
  change (String.eqb "string" "string") with true. cbv iota zeta.
  erewrite bind_normal; [|unfold Object_create; reflexivity].
  erewrite bind_normal.
  2:{ unfold forEach.
      erewrite forEach_define; [|apply heap_set_heap_insert|done|done].
      by rewrite set_heap_insert_insert. }
  unfold capture_object. by rewrite fmap_empty.
Qed.

(** With a trailing argument that is not a string, and no positional index
    among its enumerable keys, the wrapper copies these keys, adds the
    positional ones and calls the replacer. *)
Lemma wrapper_named_free args st :
  let named := array_get args (Z.of_nat (length args) - 1) in
  String.eqb (typeof named) "string" = false →
  (∀ i, i < length (Array_slice args 0 (-3)) →
        own_enumerable named (heap st) !! ToPropertyKey i = None) →
  namedCapturesWrapper replacer args st =
  call_replacer replacer (JRef (fresh (dom (heap st))))
    (array_get args (Z.of_nat (length args) - 3))
    (array_get args (Z.of_nat (length args) - 2))
    (set_heap (insert (fresh (dom (heap st)))
                      (capture_object (Array_slice args 0 (-3))
                                      (own_enumerable named (heap st)))) st).
Proof.
  intros named Hty Hfree. unfold namedCapturesWrapper.
  fold named. cbv zeta. rewrite Hty.
  erewrite bind_normal; [|unfold Object_create; reflexivity].
  erewrite bind_normal.
  2:{ rewrite Object_assign_empty by apply heap_set_heap_insert.
      rewrite set_heap_insert_insert, heap_set_heap.
      by rewrite own_enumerable_alloc by (done || apply fresh_heap). }
  erewrite bind_normal; [done|].
  unfold forEach.
  erewrite forEach_checked_free; [|apply heap_set_heap_insert|done|done|].
  - by rewrite set_heap_insert_insert.
  - intros i Hi. simpl. rewrite lookup_fmap, Hfree; done.
Qed.

(** With a trailing argument that is not a string and one of whose
    enumerable keys is a positional index, the wrapper throws at the first
    such index; the replacer is not called. *)
Lemma wrapper_named_collision args st j :
  let named := array_get args (Z.of_nat (length args) - 1) in
  String.eqb (typeof named) "string" = false →
  j < length (Array_slice args 0 (-3)) →
  (∀ i, i < j → own_enumerable named (heap st) !! ToPropertyKey i = None) →
  is_Some (own_enumerable named (heap st) !! ToPropertyKey j) →
  namedCapturesWrapper replacer args st =
  (Throw (RangeError (collision_message j)),
   set_heap (insert (fresh (dom (heap st)))
                    (capture_object (take j (Array_slice args 0 (-3)))
                                    (own_enumerable named (heap st)))) st).
Proof.
  intros named Hty Hj Hfree Hcol. unfold namedCapturesWrapper.
  fold named. cbv zeta. rewrite Hty.
  erewrite bind_normal; [|unfold Object_create; reflexivity].
  erewrite bind_normal.
  2:{ rewrite Object_assign_empty by apply heap_set_heap_insert.
      rewrite set_heap_insert_insert, heap_set_heap.
      by rewrite own_enumerable_alloc by (done || apply fresh_heap). }
  erewrite bind_throw; [done|].
  unfold forEach.
  erewrite (forEach_checked_collision _ _ _ _ _ j);
    [|apply heap_set_heap_insert|done|done|done| |].
  - by rewrite set_heap_insert_insert.
  - intros i Hi. simpl. rewrite lookup_fmap, Hfree; done.
  - simpl. rewrite lookup_fmap. destruct Hcol as [v ->]. by eexists.
Qed.

End wrapper.

(** ** The wrapper on the arguments of [String.prototype.replace] *)

Lemma array_get_last_default args :
  array_get args (Z.of_nat (length args) - 1) = default JUndefined (last args).
Proof.
  destruct (last args) as [v|] eqn:Hlast.
  - by apply array_get_last.
  - apply last_None in Hlast as ->. done.
Qed.

Lemma replace_args_last m :
  last (replace_args m)
  = Some (match rm_groups m with
          | Some g => JRef g
          | None => JString (rm_subject m)
          end).
Proof.
  unfold replace_args. rewrite !last_app. by destruct (rm_groups m).
Qed.

Lemma replace_args_named m g :
  rm_groups m = Some g →
  array_get (replace_args m) (Z.of_nat (length (replace_args m)) - 3)
    = JNumber (rm_position m)
  ∧ array_get (replace_args m) (Z.of_nat (length (replace_args m)) - 2)
    = JString (rm_subject m)
  ∧ Array_slice (replace_args m) 0 (-3) = positional_values m.
Proof.
  intros Hg. unfold replace_args. rewrite Hg. simpl app at 2.
  set (suf := [JNumber (rm_position m); JString (rm_subject m); JRef g]).
  split; [|split].
  - apply (array_get_end (positional_values m) suf 0). simpl. lia.
  - apply (array_get_end (positional_values m) suf 1). simpl. lia.
  - apply (Array_slice_end (positional_values m) suf). simpl. lia.
Qed.

Lemma replace_args_unnamed m :
  rm_groups m = None →
  array_get (replace_args m) (Z.of_nat (length (replace_args m)) - 2)
    = JNumber (rm_position m)
  ∧ Array_slice (replace_args m) 0 (-2) = positional_values m.
Proof.
  intros Hg. unfold replace_args. rewrite Hg. simpl app at 2.
  set (suf := [JNumber (rm_position m); JString (rm_subject m)]).
  split.
  - apply (array_get_end (positional_values m) suf 0). simpl. lia.
  - apply (Array_slice_end (positional_values m) suf). simpl. lia.
Qed.

Section replace.

Variable replacer :
  JsVal → JsVal → JsVal → gmap loc Obj → Completion string * gmap loc Obj.

(** When no positional index is a named key, the wrapper calls the
    replacer with the capture object of the match, the offset and the
    original string. *)
Lemma named_replace_free m st :
  (∀ i, i ≤ length (rm_captures m) →
        named_entries m (heap st) !! ToPropertyKey i = None) →
  namedCapturesWrapper replacer (replace_args m) st =
  call_replacer replacer (JRef (fresh (dom (heap st))))
    (JNumber (rm_position m)) (JString (rm_subject m))
    (set_heap (insert (fresh (dom (heap st)))
                      (capture_object (positional_values m)
                                      (named_entries m (heap st)))) st).
Proof.
  intros Hfree. unfold named_entries in *.
  destruct (rm_groups m) as [g|] eqn:Hg.
  - destruct (replace_args_named m g Hg) as (Hpos & Hsub & Hslice).
    rewrite wrapper_named_free.
    + rewrite Hpos, Hsub, Hslice, array_get_last_default, replace_args_last.
      by rewrite Hg.
    + rewrite array_get_last_default, replace_args_last, Hg. done.
    + rewrite Hslice, array_get_last_default, replace_args_last, Hg.
      intros i Hi. apply Hfree. simpl in Hi. lia.
  - destruct (replace_args_unnamed m Hg) as (Hpos & Hslice).
    erewrite wrapper_string; [|by rewrite replace_args_last, Hg].
    by rewrite Hpos, Hslice.
Qed.

(** When [j] is the first positional index that is a named key, the
    wrapper throws for it. *)
Lemma named_replace_collision m st j :
  j ≤ length (rm_captures m) →
  (∀ i, i < j → named_entries m (heap st) !! ToPropertyKey i = None) →
  is_Some (named_entries m (heap st) !! ToPropertyKey j) →
  namedCapturesWrapper replacer (replace_args m) st =
  (Throw (RangeError (collision_message j)),
   set_heap (insert (fresh (dom (heap st)))
                    (capture_object (take j (positional_values m))
                                    (named_entries m (heap st)))) st).
Proof.
  intros Hj Hfree Hcol. unfold named_entries in *.
  destruct (rm_groups m) as [g|] eqn:Hg.
  - destruct (replace_args_named m g Hg) as (Hpos & Hsub & Hslice).
    rewrite (wrapper_named_collision _ _ _ j).
    + rewrite Hslice, array_get_last_default, replace_args_last.
      by rewrite Hg.
    + rewrite array_get_last_default, replace_args_last, Hg. done.
    + rewrite Hslice. simpl. lia.
    + by rewrite array_get_last_default, replace_args_last, Hg.
    + by rewrite array_get_last_default, replace_args_last, Hg.
  - rewrite lookup_empty in Hcol. by destruct Hcol.
Qed.

Lemma call_replacer_calls captures index original st r st' :
  call_replacer replacer captures index original st = (r, st') →
  calls st' = (calls st ++ [(captures, index, original)])%list.
Proof.
  unfold call_replacer. destruct (replacer _ _ _ _) as [r' h].
  by intros [= _ <-].
Qed.

End replace.

Lemma app_singleton_neq {A} (l : list A) x : (l ++ [x])%list ≠ l.
Proof.
  intros H. apply (f_equal length) in H. rewrite length_app in H.
  simpl in H. lia.
Qed.

Lemma has_property_capture_object l entries k :
  has_property (capture_object l entries) k = true
  ↔ is_Some (entries !! k) ∨ ∃ i, i < length l ∧ k = ToPropertyKey i.
Proof.
  unfold has_property, capture_object. simpl.
  pose proof (define_all_is_Some l 0 (data_property <$> entries) k) as H.
  rewrite lookup_fmap, fmap_is_Some in H. simpl in H. rewrite <- H.
  destruct (define_all _ _ _ !! k); split; try done; try (by eexists);
    try (by intros [? ?]).
Qed.

Lemma trailing_string args s :
  array_get args (Z.of_nat (length args) - 1) = JString s →
  last args = Some (JString s).
Proof.
  rewrite array_get_last_default.
  destruct (last args) as [v|]; simpl; intros H; [by subst|done].
Qed.

Lemma trailing_reference args g :
  array_get args (Z.of_nat (length args) - 1) = JRef g →
  last args = Some (JRef g).
Proof.
  rewrite array_get_last_default.
  destruct (last args) as [v|]; simpl; intros H; [by subst|done].
Qed.

(** ** The capture adapter *)

(** C1: on the arguments of a match with M groups, the function returned
    by [named] calls the replacer with a capture object whose key 0 holds
    the matched substring, whose keys 1..M hold the positional captures in
    order, and in which every named key holds the value of the
    named-captures object; the only invocations without such a call are
    those that throw for a named key that is a positional index. *)
Theorem named_capture_object replacer m st :
  (∃ j st',
     j ≤ length (rm_captures m)
     ∧ is_Some (named_entries m (heap st) !! ToPropertyKey j)
     ∧ named replacer (replace_args m) st
       = (Throw (RangeError (collision_message j)), st')
     ∧ calls st' = calls st)
  ∨ (∃ c cobj st1,
       named replacer (replace_args m) st
       = call_replacer replacer (JRef c) (JNumber (rm_position m))
                       (JString (rm_subject m)) st1
       ∧ calls st1 = calls st
       ∧ heap st1 !! c = Some cobj
       ∧ value <$> own cobj !! ToPropertyKey 0 = Some (JString (rm_matched m))
       ∧ (∀ i v, rm_captures m !! i = Some v →
                 value <$> own cobj !! ToPropertyKey (S i) = Some v)
       ∧ (∀ k v, named_entries m (heap st) !! k = Some v →
                 value <$> own cobj !! k = Some v)).
Proof.
  unfold named.
  destruct (first_collision (named_entries m (heap st))
                            (S (length (rm_captures m))))
    as [Hfree|(j & Hj & Hfree & Hcol)].
  - right. eexists _, _, _.
    split; [apply named_replace_free; intros; apply Hfree; lia|].
    split; [done|]. split; [apply heap_set_heap_insert|].
    unfold capture_object. cbn [own]. split; [|split].
    + change (ToPropertyKey 0) with (ToPropertyKey (0 + 0)).
      by rewrite (define_all_lookup_index (positional_values m) 0 _ 0 _ eq_refl).
    + intros i v Hi.
      change (ToPropertyKey (S i)) with (ToPropertyKey (0 + S i)).
      by rewrite (define_all_lookup_index (positional_values m) 0 _ (S i) v Hi).
    + intros k v Hk. rewrite define_all_lookup_other.
      * by rewrite lookup_fmap, Hk.
      * intros i Hi ->. simpl in Hi. rewrite Hfree in Hk; [done|lia].
  - left. eexists j, _. split; [lia|]. split; [done|].
    split; [apply named_replace_collision; [lia|done|done]|done].
Qed.

(** The sample match, with the named group [year], goes to the replacer,
    which returns the first capture. *)
Example named_sample_run :
  named sample_replacer (replace_args (sample_replacement (Some 0)))
        (sample_state sample_groups)
  = (Normal "2020", sample_final_state).
Proof. vm_compute. reflexivity. Qed.

(** C2: when the trailing argument is a named-captures object and one of
    its keys is the decimal form of a positional index (0 for the match,
    1..M for the captures), the function returned by [named] throws a
    [RangeError] and does not call the replacer. *)
Theorem named_numeric_collision replacer m st g i :
  rm_groups m = Some g →
  i ≤ length (rm_captures m) →
  is_Some (named_entries m (heap st) !! ToPropertyKey i) →
  ∃ j st',
    j ≤ i
    ∧ named replacer (replace_args m) st
      = (Throw (RangeError (collision_message j)), st')
    ∧ calls st' = calls st.
Proof.
  intros _ Hi Hcol. unfold named.
  destruct (first_collision (named_entries m (heap st)) (S i))
    as [Hfree|(j & Hj & Hfree & Hcolj)].
  - rewrite Hfree in Hcol by lia. by destruct Hcol.
  - eexists j, _. split; [lia|].
    split; [apply named_replace_collision; [lia|done|done]|done].
Qed.

Lemma named_numeric_collision_witness :
  ∃ j st',
    j ≤ 1
    ∧ named sample_replacer (replace_args (sample_replacement (Some 0)))
            (sample_state colliding_groups)
      = (Throw (RangeError (collision_message j)), st')
    ∧ calls st' = [].
Proof.
  apply (named_numeric_collision sample_replacer (sample_replacement (Some 0))
                                 (sample_state colliding_groups) 0 1).
  - reflexivity.
  - simpl. lia.
  - vm_compute. eexists. reflexivity.
Defined.

(** C8: when the function returned by [named] returns normally, it has
    called the replacer exactly once, with a fresh capture object, the
    match offset and the original string, on a heap that differs from the
    initial one only by the capture object, and its result and final heap
    are those of that call. *)
Theorem named_calls_replacer_once replacer m st s st' :
  named replacer (replace_args m) st = (Normal s, st') →
  ∃ c,
    heap st !! c = None
    ∧ replacer (JRef c) (JNumber (rm_position m)) (JString (rm_subject m))
               (<[c := capture_object (positional_values m)
                                      (named_entries m (heap st))]> (heap st))
      = (Normal s, heap st')
    ∧ calls st'
      = (calls st ++ [(JRef c, JNumber (rm_position m),
                       JString (rm_subject m))])%list.
Proof.
  unfold named. intros Hrun.
  destruct (first_collision (named_entries m (heap st))
                            (S (length (rm_captures m))))
    as [Hfree|(j & Hj & Hfree & Hcol)].
  - rewrite named_replace_free in Hrun by (intros; apply Hfree; lia).
    exists (fresh (dom (heap st))). split; [apply fresh_heap|].
    unfold call_replacer in Hrun. simpl in Hrun.
    destruct (replacer _ _ _ _) as [r h].
    by injection Hrun as -> <-.
  - by rewrite (named_replace_collision _ _ _ j) in Hrun by (done || lia).
Qed.

Lemma named_calls_replacer_once_witness :
  ∃ c,
    heap (sample_state sample_groups) !! c = None
    ∧ sample_replacer (JRef c)
        (JNumber (rm_position (sample_replacement (Some 0))))
        (JString (rm_subject (sample_replacement (Some 0))))
        (<[c := capture_object
                  (positional_values (sample_replacement (Some 0)))
                  (named_entries (sample_replacement (Some 0))
                                 (heap (sample_state sample_groups)))]>
           (heap (sample_state sample_groups)))
      = (Normal "2020", heap sample_final_state)
    ∧ calls sample_final_state
      = (calls (sample_state sample_groups)
         ++ [(JRef c, JNumber (rm_position (sample_replacement (Some 0))),
              JString (rm_subject (sample_replacement (Some 0))))])%list.
Proof.
  apply (named_calls_replacer_once sample_replacer
           (sample_replacement (Some 0)) (sample_state sample_groups) "2020"
           sample_final_state).
  vm_compute. reflexivity.
Defined.

(** C9: the capture object has no prototype.  The function returned by
    [named] either throws for a positional index that is an own key copied
    from the named-captures object, or calls the replacer with an object
    whose prototype is [null] and whose [in]-visible keys are the copied
    named keys and the positional indices 0..M, nothing else. *)
Theorem named_capture_object_null_prototype replacer m st :
  (∃ j st',
     j ≤ length (rm_captures m)
     ∧ is_Some (named_entries m (heap st) !! ToPropertyKey j)
     ∧ named replacer (replace_args m) st
       = (Throw (RangeError (collision_message j)), st')
     ∧ calls st' = calls st)
  ∨ (∃ c cobj st1,
       named replacer (replace_args m) st
       = call_replacer replacer (JRef c) (JNumber (rm_position m))
                       (JString (rm_subject m)) st1
       ∧ calls st1 = calls st
       ∧ heap st1 !! c = Some cobj
       ∧ proto cobj = ProtoNull
       ∧ ∀ k, has_property cobj k = true
              ↔ is_Some (named_entries m (heap st) !! k)
                ∨ ∃ i, i ≤ length (rm_captures m) ∧ k = ToPropertyKey i).
Proof.
  unfold named.
  destruct (first_collision (named_entries m (heap st))
                            (S (length (rm_captures m))))
    as [Hfree|(j & Hj & Hfree & Hcol)].
  - right. eexists _, _, _.
    split; [apply named_replace_free; intros; apply Hfree; lia|].
    split; [done|]. split; [apply heap_set_heap_insert|]. split; [done|].
    intros k. rewrite has_property_capture_object. simpl length.
    split; (intros [?|(i & Hi & ->)]; [by left|right; exists i; split; [lia|done]]).
  - left. eexists j, _. split; [lia|]. split; [done|].
    split; [apply named_replace_collision; [lia|done|done]|done].
Qed.

(** C10: when the trailing argument is a string, the function returned by
    [named] goes straight to the call of the replacer, whatever the other
    arguments are; and whenever it throws without having called the
    replacer, the exception is a [RangeError] and the trailing argument is
    a reference to an object. *)
Theorem named_string_trailing_never_throws replacer args st :
  (∀ s, last args = Some (JString s) →
        ∃ c cobj,
          heap st !! c = None
          ∧ named replacer args st
            = call_replacer replacer (JRef c)
                (array_get args (Z.of_nat (length args) - 2)) (JString s)
                (set_heap (insert c cobj) st))
  ∧ (∀ e st',
       named replacer args st = (Throw e, st') →
       calls st' = calls st →
       ∃ g message, last args = Some (JRef g) ∧ e = RangeError message).
Proof.
  unfold named. split.
  - intros s Hlast. eexists _, _. split; [apply fresh_heap|].
    by apply wrapper_string.
  - intros e st' Hrun Hcalls.
    destruct (String.eqb (typeof (array_get args (Z.of_nat (length args) - 1)))
                         "string") eqn:Hty.
    + destruct (array_get args (Z.of_nat (length args) - 1)) as [| | | |s|]
        eqn:Hnamed; try (vm_compute in Hty; discriminate Hty).
      rewrite (wrapper_string _ _ s) in Hrun by by apply trailing_string.
      apply call_replacer_calls in Hrun. rewrite Hrun in Hcalls.
      by apply app_singleton_neq in Hcalls.
    + destruct (first_collision
                  (own_enumerable (array_get args (Z.of_nat (length args) - 1))
                                  (heap st))
                  (length (Array_slice args 0 (-3))))
        as [Hfree|(j & Hj & Hfree & Hcol)].
      * rewrite wrapper_named_free in Hrun by done.
        apply call_replacer_calls in Hrun. rewrite Hrun in Hcalls.
        by apply app_singleton_neq in Hcalls.
      * rewrite (wrapper_named_collision _ _ _ j) in Hrun by done.
        injection Hrun as <- _.
        destruct (array_get args (Z.of_nat (length args) - 1)) as [| | | |s|g]
          eqn:Hnamed;
          try (simpl in Hcol; rewrite lookup_empty in Hcol; by destruct Hcol).
        -- vm_compute in Hty. discriminate Hty.
        -- exists g. eexists. split; [by apply trailing_reference|done].
Qed.

Lemma named_string_trailing_never_throws_witness :
  ∃ c cobj,
    heap (sample_state sample_groups) !! c = None
    ∧ named sample_replacer (replace_args (sample_replacement None))
            (sample_state sample_groups)
      = call_replacer sample_replacer (JRef c)
          (array_get (replace_args (sample_replacement None))
                     (Z.of_nat (length (replace_args (sample_replacement None)))
                      - 2))
          (JString "2020-01,2021-02")
          (set_heap (insert c cobj) (sample_state sample_groups)).
Proof.
  apply (named_string_trailing_never_throws sample_replacer
           (replace_args (sample_replacement None))
           (sample_state sample_groups)).
  reflexivity.
Defined.

(** ** The accessor of named captures *)

(** C4: on a match result, [groups] returns the value of its [groups]
    property, the very reference and with the state untouched, when that
    value is not [undefined], and throws a [RangeError] when it is; there
    is no other outcome. *)
Theorem groups_of_match result st :
  (r_groups result ≠ JUndefined
   ∧ groups (Some result) st = (Normal (r_groups result), st))
  ∨ (r_groups result = JUndefined
     ∧ groups (Some result) st
       = (Throw (RangeError missing_groups_message), st)).
Proof.
  unfold groups. destruct (decide (r_groups result = JUndefined)) as [H|H].
  - right. done.
  - left. done.
Qed.

(** C5: on [null], [groups] returns [null] and throws nothing. *)
Theorem groups_of_null st : groups None st = (Normal JNull, st).
Proof. reflexivity. Qed.

(** ** The search of [exec] *)

Lemma search_None m S : ∀ n pos,
  search m S pos n = None ↔ ∀ i, pos ≤ i < pos + n → m S i = None.
Proof.
  induction n as [|n IH]; intros pos; simpl.
  - split; [intros _ i Hi; lia|done].
  - destruct (m S pos) as [r|] eqn:Hpos.
    + split; [done|]. intros H. rewrite H in Hpos by lia. done.
    + rewrite IH. split; intros H i Hi.
      * destruct (decide (i = pos)) as [->|]; [done|]. apply H. lia.
      * apply H. lia.
Qed.

Lemma search_Some m S : ∀ n pos i r,
  search m S pos n = Some (i, r) →
  pos ≤ i < pos + n ∧ m S i = Some r.
Proof.
  induction n as [|n IH]; intros pos i r; simpl; [done|].
  destruct (m S pos) as [r'|] eqn:Hpos.
  - intros [= <- <-]. split; [lia|done].
  - intros H. apply IH in H as [? ?]. split; [lia|done].
Qed.

Lemma exec_tries_le st len pos : exec_tries st len pos ≤ len + 1 - pos.
Proof. unfold exec_tries. destruct st; lia. Qed.

Lemma exec_tries_pos st len pos : pos ≤ len → 1 ≤ exec_tries st len pos.
Proof. unfold exec_tries. destruct st; lia. Qed.

(** A search within the target finds nothing when the whole target has no
    match. *)
Lemma search_no_occurrence m S pos n :
  search m S 0 (String.length S + 1) = None →
  n ≤ String.length S + 1 - pos →
  search m S pos n = None.
Proof.
  rewrite !search_None. intros H Hn i Hi. apply H. lia.
Qed.

Lemma occurrences_nil regexp target :
  occurrences regexp target = [] ↔
  search (matcher regexp) target 0 (String.length target + 1) = None.
Proof.
  unfold occurrences. simpl. rewrite Nat.sub_0_r.
  destruct (search _ _ _ _) as [[i r]|]; split; done.
Qed.

Lemma occurrences_head regexp target :
  head (occurrences regexp target)
  = (λ ir, exec_result target ir.1 ir.2)
      <$> search (matcher regexp) target 0 (String.length target + 1).
Proof.
  unfold occurrences. simpl. rewrite Nat.sub_0_r.
  by destruct (search _ _ _ _) as [[i r]|].
Qed.

(** ** The generator of matches *)

(** C7: when the target has no occurrence of the pattern, global or not,
    sticky or not and wherever its cursor is, the first pull on the
    generator of [execAll] ends it: the sequence is empty. *)
Theorem execAll_no_occurrence regexp target fuel :
  occurrences regexp target = [] →
  execAll (S fuel) regexp target
  = Some ([], if global regexp || sticky regexp
              then set_lastIndex 0 regexp else regexp).
Proof.
  intros Hnone. apply occurrences_nil in Hnone.
  unfold execAll, execAll_run, execAll_next, exec.
  by rewrite (search_no_occurrence _ _ _ _ Hnone (exec_tries_le _ _ _)).
Qed.

Lemma execAll_no_occurrence_witness :
  execAll 1 (sample_regexp "a" true 2) "bbb"
  = Some ([], set_lastIndex 0 (sample_regexp "a" true 2)).
Proof.
  apply (execAll_no_occurrence (sample_regexp "a" true 2) "bbb" 0).
  vm_compute. reflexivity.
Defined.

(** C6, as the code has it: for a pattern that is neither global nor
    sticky and a target with at least one occurrence, the generator of
    [execAll] yields one result, the first occurrence, and the second pull
    ends it; the pattern is left as it was. *)
Theorem execAll_non_global regexp target fuel :
  global regexp = false →
  sticky regexp = false →
  1 ≤ length (occurrences regexp target) →
  ∃ result,
    head (occurrences regexp target) = Some result
    ∧ execAll (S (S fuel)) regexp target = Some ([result], regexp).
Proof.
  intros Hglobal Hsticky Hocc.
  destruct (occurrences regexp target) as [|result rest] eqn:Hlist;
    [simpl in Hocc; lia|].
  exists result. split; [done|].
  pose proof (occurrences_head regexp target) as Hhead.
  rewrite Hlist in Hhead. simpl in Hhead.
  destruct (search _ _ _ _) as [[i r]|] eqn:Hsearch; [|done].
  injection Hhead as ->.
  unfold execAll. simpl. unfold exec, exec_tries.
  rewrite Hglobal, Hsticky. simpl. rewrite Nat.sub_0_r, Hsearch.
  simpl. by rewrite Hglobal.
Qed.

Lemma execAll_non_global_witness :
  ∃ result,
    head (occurrences (sample_regexp "a" false 3) "abaa") = Some result
    ∧ execAll 2 (sample_regexp "a" false 3) "abaa"
      = Some ([result], sample_regexp "a" false 3).
Proof.
  apply (execAll_non_global (sample_regexp "a" false 3) "abaa" 0).
  - reflexivity.
  - reflexivity.
  - vm_compute. lia.
Defined.

(** C6, as stated, fails: a sticky pattern that is not global matches at
    its cursor only.  With the cursor at 0, the target "ba" has one
    occurrence of "a", at index 1, and the generator yields nothing. *)
Lemma execAll_non_global_sticky_counterexample :
  global (sample_sticky_regexp "a" false 0) = false
  ∧ length (occurrences (sample_sticky_regexp "a" false 0) "ba") = 1
  ∧ ∀ fuel,
      execAll (S fuel) (sample_sticky_regexp "a" false 0) "ba"
      = Some ([], sample_sticky_regexp "a" false 0).
Proof.
  split; [reflexivity|]. split; [reflexivity|].
  intros fuel. vm_compute. reflexivity.
Qed.

(** The occurrences found from a position start at or after it, and come
    in strictly increasing order of their indices. *)
Lemma occurrences_from_sorted m S : ∀ fuel pos,
  Forall (λ result, pos ≤ index result) (occurrences_from m S fuel pos)
  ∧ StronglySorted (λ a b, index a < index b) (occurrences_from m S fuel pos).
Proof.
  induction fuel as [|fuel IH]; intros pos; simpl.
  - split; constructor.
  - destruct (search _ _ _ _) as [[i r]|] eqn:Hsearch; [|split; constructor].
    apply search_Some in Hsearch as [Hi _].
    destruct (IH (if (endIndex r <=? i)%nat then Datatypes.S i else endIndex r))
      as [Hfrom Hsorted].
    assert (i < (if (endIndex r <=? i)%nat then Datatypes.S i else endIndex r))
      as Hnext.
    { destruct (Nat.leb_spec (endIndex r) i); lia. }
    split.
    + constructor; [simpl; lia|].
      eapply Forall_impl; [exact Hfrom|]. simpl. intros. lia.
    + constructor; [done|].
      eapply Forall_impl; [exact Hfrom|]. simpl. intros. lia.
Qed.

(** One pull on the generator of a global pattern. *)
Lemma execAll_next_global m st target s pos :
  s ≠ Completed →
  execAll_next target s
    {| matcher := m; global := true; sticky := st; lastIndex := pos |}
  = match search m target pos (exec_tries st (String.length target) pos) with
    | None =>
        (None, Completed,
         {| matcher := m; global := true; sticky := st; lastIndex := 0 |})
    | Some (i, r) =>
        (Some (exec_result target i r), SuspendedYield,
         {| matcher := m; global := true; sticky := st;
            lastIndex := endIndex r |})
    end.
Proof.
  intros Hs. unfold execAll_next, exec. simpl.
  destruct s; [| |done]; by destruct (search _ _ _ _) as [[i r]|].
Qed.

(** An occurrence is empty when the match the pattern reports at its index
    ends where it starts. *)
Lemma occurrences_from_head_nonempty m target f pos i r :
  Forall (λ result, ∀ r', m target (index result) = Some r' →
                          index result < endIndex r')
         (occurrences_from m target (S f) pos) →
  search m target pos (String.length target + 1 - pos) = Some (i, r) →
  i < endIndex r
  ∧ Forall (λ result, ∀ r', m target (index result) = Some r' →
                            index result < endIndex r')
           (occurrences_from m target f (endIndex r)).
Proof.
  intros Hall Hsearch. simpl in Hall. rewrite Hsearch in Hall.
  apply Forall_cons in Hall as [Hhead Hrest].
  apply search_Some in Hsearch as [_ Hr].
  pose proof (Hhead r Hr) as He. simpl in He.
  split; [done|].
  by destruct (Nat.leb_spec (endIndex r) i) as [|_]; [lia|].
Qed.

(** A global pattern without the sticky flag, none of whose occurrences
    from the cursor is empty: from a cursor at [pos], the generator yields
    the occurrences found from [pos] and then ends, with the cursor back
    at 0. *)
Lemma execAll_run_global m target : ∀ f pos s fuel,
  Forall (λ result, ∀ r, m target (index result) = Some r →
                         index result < endIndex r)
         (occurrences_from m target f pos) →
  s ≠ Completed →
  String.length target + 1 ≤ f + pos →
  length (occurrences_from m target f pos) < fuel →
  execAll_run fuel target s
    {| matcher := m; global := true; sticky := false; lastIndex := pos |}
  = Some (occurrences_from m target f pos,
          {| matcher := m; global := true; sticky := false; lastIndex := 0 |}).
Proof.
  induction f as [|f IH]; intros pos s fuel Hnonempty Hs Hf Hfuel;
    (destruct fuel as [|fuel]; [simpl in Hfuel; lia|]);
    cbn [execAll_run]; rewrite execAll_next_global by done;
    unfold exec_tries.
  - by replace (String.length target + 1 - pos) with 0 by lia.
  - destruct (search _ _ _ _) as [[i r]|] eqn:Hsearch.
    + destruct (occurrences_from_head_nonempty _ _ _ _ _ _ Hnonempty Hsearch)
        as [He Hrest].
      simpl in Hfuel. rewrite Hsearch in Hfuel. simpl. rewrite Hsearch.
      destruct (Nat.leb_spec (endIndex r) i) as [|_]; [lia|].
      apply search_Some in Hsearch as [Hi Hr]. simpl in Hfuel.
      rewrite (IH (endIndex r) SuspendedYield fuel); [done|done|done|lia|lia].
    + simpl. by rewrite Hsearch.
Qed.

(** C3, as the code has it: for a global pattern without the sticky flag
    whose cursor is at 0, and a target none of whose occurrences of the
    pattern is empty, the generator of [execAll] yields the occurrences of
    the pattern, all k of them and in increasing order of their positions,
    and then ends, with the cursor back at 0. *)
Theorem execAll_global regexp target fuel :
  global regexp = true →
  sticky regexp = false →
  lastIndex regexp = 0 →
  Forall (λ result, ∀ r, matcher regexp target (index result) = Some r →
                         index result < endIndex r)
         (occurrences regexp target) →
  length (occurrences regexp target) < fuel →
  execAll fuel regexp target = Some (occurrences regexp target, regexp)
  ∧ StronglySorted (λ a b, index a < index b) (occurrences regexp target).
Proof.
  intros Hglobal Hsticky Hcursor Hnonempty Hfuel. split.
  - destruct regexp as [m g st cursor].
    cbn [global sticky lastIndex matcher] in *. subst.
    unfold execAll, occurrences in *. cbn [matcher] in *.
    apply execAll_run_global; [done|done|lia|done].
  - apply occurrences_from_sorted.
Qed.

Lemma execAll_global_witness :
  execAll 4 (sample_regexp "a" true 0) "abaa"
  = Some (occurrences (sample_regexp "a" true 0) "abaa",
          sample_regexp "a" true 0)
  ∧ StronglySorted (λ a b, index a < index b)
                   (occurrences (sample_regexp "a" true 0) "abaa").
Proof.
  apply (execAll_global (sample_regexp "a" true 0) "abaa" 4).
  - reflexivity.
  - reflexivity.
  - reflexivity.
  - apply Forall_forall. intros result _ r.
    unfold sample_regexp, literal. simpl.
    destruct (String.eqb _ _); [|done]. intros [= <-]. simpl. lia.
  - vm_compute. lia.
Defined.

(** C3, as stated, fails: a global pattern whose cursor is not at 0 skips
    the occurrences before the cursor.  With the cursor at 1, the target
    "aa" has two occurrences of "a" and the generator yields one, the
    occurrence at index 1, and then ends. *)
Lemma execAll_global_cursor_counterexample :
  global (sample_regexp "a" true 1) = true
  ∧ length (occurrences (sample_regexp "a" true 1) "aa") = 2
  ∧ ∀ fuel,
      execAll (S (S fuel)) (sample_regexp "a" true 1) "aa"
      = Some ([exec_result "aa" 1 {| endIndex := 2; captures := [];
                                     named_groups := JUndefined |}],
              sample_regexp "a" true 0).
Proof.
  split; [reflexivity|]. split; [reflexivity|].
  intros fuel. vm_compute. reflexivity.
Qed.

(** Hence no run of the generator on that input yields the occurrences of
    the pattern. *)
Lemma execAll_global_not_all_occurrences :
  ¬ (∀ regexp target,
       global regexp = true →
       ∃ fuel regexp',
         execAll fuel regexp target
         = Some (occurrences regexp target, regexp')).
Proof.
  intros H.
  destruct (H (sample_regexp "a" true 1) "aa" eq_refl) as (fuel & regexp' & Hrun).
  destruct fuel as [|[|fuel]]; vm_compute in Hrun; discriminate Hrun.
Qed.

(** A global sticky pattern stops at the first position where it does not
    match: with the cursor at 0, the target "aba" has two occurrences of
    "a" that are not empty, and the generator yields the first only. *)
Lemma execAll_global_sticky_stops :
  length (occurrences (sample_sticky_regexp "a" true 0) "aba") = 2
  ∧ ∀ fuel,
      execAll (S (S fuel)) (sample_sticky_regexp "a" true 0) "aba"
      = Some ([exec_result "aba" 0 {| endIndex := 1; captures := [];
                                      named_groups := JUndefined |}],
              sample_sticky_regexp "a" true 0).
Proof.
  split; [reflexivity|]. intros fuel. vm_compute. reflexivity.
Qed.

(** A global pattern that matches the empty string never moves its cursor
    past such a match: the generator yields the same result again and
    again, and no number of pulls reaches its end. *)
Lemma execAll_run_empty_match_diverges : ∀ fuel s,
  s ≠ Completed →
  execAll_run fuel "b" s (sample_regexp "" true 0) = None.
Proof.
  induction fuel as [|fuel IH]; intros s Hs; [done|].
  simpl.
  assert (execAll_next "b" s (sample_regexp "" true 0)
          = (Some (exec_result "b" 0 {| endIndex := 0; captures := [];
                                        named_groups := JUndefined |}),
             SuspendedYield, sample_regexp "" true 0)) as ->.
  { by destruct s. }
  by rewrite IH.
Qed.

Lemma execAll_empty_match_diverges fuel :
  execAll fuel (sample_regexp "" true 0) "b" = None.
Proof. by apply execAll_run_empty_match_diverges. Qed.

(** * Further properties *)

(** ** What [exec] returns *)

Lemma set_lastIndex_twice i j R :
  set_lastIndex i (set_lastIndex j R) = set_lastIndex i R.
Proof. done. Qed.

(** A result of [exec] is a match of the pattern at its index, at or after
    the position the search started from and within the target; a global
    or sticky pattern has its cursor moved to the end of the match, or to
    0 without one, and another pattern is left as it was. *)
Lemma exec_spec R target o R1 :
  exec R target = (o, R1) →
  match o with
  | Some result =>
      ∃ i r,
        (if global R || sticky R then lastIndex R else 0) ≤ i
        ∧ i ≤ String.length target
        ∧ matcher R target i = Some r
        ∧ result = exec_result target i r
        ∧ R1 = (if global R || sticky R
                then set_lastIndex (endIndex r) R else R)
  | None => R1 = (if global R || sticky R then set_lastIndex 0 R else R)
  end.
Proof.
  unfold exec.
  destruct (search _ _ _ _) as [[i r]|] eqn:Hsearch; intros [= <- <-]; [|done].
  apply search_Some in Hsearch as [Hi Hr].
  pose proof (exec_tries_le (sticky R) (String.length target)
                (if global R || sticky R then lastIndex R else 0)).
  exists i, r. split; [lia|]. split; [lia|done].
Qed.

(** One pull either ends the generator or yields a result of [exec]. *)
Lemma execAll_next_spec target s R o s1 R1 :
  execAll_next target s R = (o, s1, R1) →
  match o with
  | Some result =>
      s ≠ Completed ∧ s1 = SuspendedYield
      ∧ exec R target = (Some result, R1)
  | None => s1 = Completed
  end.
Proof.
  unfold execAll_next.
  destruct s.
  - by destruct (exec R target) as [[result|] R2]; intros [= <- <- <-].
  - destruct (global R); simpl.
    + by destruct (exec R target) as [[result|] R2]; intros [= <- <- <-].
    + by intros [= <- <- <-].
  - by intros [= <- <- <-].
Qed.

Lemma exec_matcher R target o R1 :
  exec R target = (o, R1) → matcher R1 = matcher R.
Proof.
  intros Hexec. apply exec_spec in Hexec.
  destruct o as [result|].
  - destruct Hexec as (i & r & _ & _ & _ & _ & ->).
    by destruct (global R || sticky R).
  - subst. by destruct (global R || sticky R).
Qed.

(** Every result of the first pulls is a match of the pattern at its
    index, within the target. *)
Lemma execAll_pulls_sound target : ∀ n s R,
  Forall (λ result,
            ∃ i r, i ≤ String.length target
                   ∧ matcher R target i = Some r
                   ∧ result = exec_result target i r)
         (execAll_pulls n target s R).1.1.
Proof.
  induction n as [|n IH]; intros s R; [constructor|].
  simpl.
  destruct (execAll_next target s R) as [[[result|] s1] R1] eqn:Hnext;
    [|constructor].
  apply execAll_next_spec in Hnext as (_ & _ & Hexec).
  pose proof (exec_matcher _ _ _ _ Hexec) as Hm.
  apply exec_spec in Hexec as (i & r & _ & Hi & Hr & -> & _).
  specialize (IH s1 R1). rewrite Hm in IH.
  destruct (execAll_pulls n target s1 R1) as [[rest s2] R2]. simpl in *.
  constructor; [|done]. by exists i, r.
Qed.

(** A run that ends within [fuel] pulls is what these pulls yield. *)
Lemma execAll_run_pulls target : ∀ fuel s R results R',
  execAll_run fuel target s R = Some (results, R') →
  execAll_pulls fuel target s R = (results, Completed, R').
Proof.
  induction fuel as [|fuel IH]; intros s R results R' Hrun; [done|].
  simpl in *.
  destruct (execAll_next target s R) as [[[result|] s1] R1] eqn:Hnext.
  - destruct (execAll_run fuel target s1 R1) as [[rest R2]|] eqn:Hrest;
      [|done].
    injection Hrun as <- <-. by rewrite (IH _ _ _ _ Hrest).
  - injection Hrun as <- <-.
    apply execAll_next_spec in Hnext. by subst.
Qed.

(** ** More on the generator of matches *)

(** X1: every result the generator yields, for any pattern, any cursor
    and any number of pulls, whether or not the generator ever ends, is a
    match of the pattern: its [input] is the target, its [index] lies
    within the target, and the pattern matches there with the captures and
    groups of the result. *)
Theorem execAll_yields_matches regexp target n :
  Forall (λ result,
            input result = target
            ∧ index result ≤ String.length target
            ∧ ∃ r, matcher regexp target (index result) = Some r
                   ∧ result = exec_result target (index result) r)
         (execAll_pulls n target SuspendedStart regexp).1.1.
Proof.
  eapply Forall_impl; [apply execAll_pulls_sound|].
  intros result (i & r & Hi & Hr & ->). simpl. eauto.
Qed.

(** X2: [groups] on a result the generator yielded, at any pull, returns
    the groups value the pattern reported for the match at the index of
    the result, and throws the [RangeError] when the pattern reported
    none. *)
Theorem groups_of_yielded regexp target n :
  Forall (λ result,
            ∃ r, matcher regexp target (index result) = Some r
                 ∧ ∀ st,
                     groups (Some result) st
                     = if decide (named_groups r = JUndefined)
                       then (Throw (RangeError missing_groups_message), st)
                       else (Normal (named_groups r), st))
         (execAll_pulls n target SuspendedStart regexp).1.1.
Proof.
  eapply Forall_impl; [apply execAll_pulls_sound|].
  intros result (i & r & Hi & Hr & ->). simpl. exists r. split; [done|].
  intros st. unfold groups. simpl. by destruct (decide _).
Qed.

(** X3: a global pattern whose cursor is beyond the end of the target
    yields nothing, whatever the target contains, and the cursor goes back
    to 0. *)
Theorem execAll_cursor_beyond_end regexp target fuel :
  global regexp = true →
  String.length target < lastIndex regexp →
  execAll (S fuel) regexp target = Some ([], set_lastIndex 0 regexp).
Proof.
  intros Hglobal Hcursor. unfold execAll, execAll_run, execAll_next, exec.
  rewrite Hglobal. simpl orb. cbv iota.
  rewrite (proj2 (search_None _ _ _ _)); [done|].
  pose proof (exec_tries_le (sticky regexp) (String.length target)
                            (lastIndex regexp)).
  intros i Hi. lia.
Qed.

Lemma execAll_cursor_beyond_end_witness :
  execAll 1 (sample_regexp "a" true 5) "abaa"
  = Some ([], set_lastIndex 0 (sample_regexp "a" true 5)).
Proof.
  apply (execAll_cursor_beyond_end (sample_regexp "a" true 5) "abaa" 0).
  - reflexivity.
  - vm_compute. lia.
Defined.

Lemma execAll_run_global_final target : ∀ fuel s R results R',
  global R = true → s ≠ Completed →
  execAll_run fuel target s R = Some (results, R') →
  R' = set_lastIndex 0 R.
Proof.
  induction fuel as [|fuel IH]; intros s R results R' Hg Hs Hrun; [done|].
  destruct R as [m g st cursor]. simpl in Hg. subst g.
  simpl in Hrun. rewrite execAll_next_global in Hrun by done.
  destruct (search _ _ _ _) as [[i r]|]; [|by injection Hrun as <- <-].
  destruct (execAll_run fuel target _ _) as [[rest R2]|] eqn:Hrest; [|done].
  injection Hrun as <- <-. by apply IH in Hrest.
Qed.

(** X4: when the run of a global pattern has ended, the cursor of the
    pattern is back at 0 and nothing else of it has changed, so the
    pattern can be used again from the start. *)
Theorem execAll_global_resets_cursor regexp target fuel results regexp' :
  global regexp = true →
  execAll fuel regexp target = Some (results, regexp') →
  regexp' = set_lastIndex 0 regexp.
Proof.
  intros Hglobal Hrun. by apply execAll_run_global_final in Hrun.
Qed.

Lemma execAll_global_resets_cursor_witness :
  sample_regexp "a" true 0 = set_lastIndex 0 (sample_regexp "a" true 1).
Proof.
  apply (execAll_global_resets_cursor (sample_regexp "a" true 1) "aa" 2
           [exec_result "aa" 1 {| endIndex := 2; captures := [];
                                  named_groups := JUndefined |}]
           (sample_regexp "a" true 0)).
  - reflexivity.
  - vm_compute. reflexivity.
Defined.

Lemma search_first m target : ∀ n pos i r,
  pos ≤ i < pos + n →
  (∀ k, pos ≤ k < i → m target k = None) →
  m target i = Some r →
  search m target pos n = Some (i, r).
Proof.
  induction n as [|n IH]; intros pos i r Hi Hbefore Hr; [lia|].
  simpl. destruct (decide (pos = i)) as [->|Hne].
  - by rewrite Hr.
  - rewrite Hbefore by lia. apply IH; [lia| |done].
    intros k Hk. apply Hbefore. lia.
Qed.

Lemma search_here m st target pos r :
  pos ≤ String.length target →
  m target pos = Some r →
  search m target pos (exec_tries st (String.length target) pos)
  = Some (pos, r).
Proof.
  intros Hpos Hr. pose proof (exec_tries_pos st _ _ Hpos).
  apply search_first; [lia| |done]. intros k Hk. lia.
Qed.

(** A global pattern whose cursor is on an empty match stays there: no
    number of pulls reaches the end of the sequence. *)
Lemma execAll_run_stuck m st target r : ∀ fuel s pos,
  s ≠ Completed →
  pos ≤ String.length target →
  m target pos = Some r →
  endIndex r = pos →
  execAll_run fuel target s
    {| matcher := m; global := true; sticky := st; lastIndex := pos |}
  = None.
Proof.
  induction fuel as [|fuel IH]; intros s pos Hs Hpos Hr He; [done|].
  cbn [execAll_run]. rewrite execAll_next_global by done.
  rewrite (search_here m st target pos r) by done.
  rewrite He. by rewrite IH.
Qed.

(** ... and every pull yields that match again. *)
Lemma execAll_pulls_stuck m st target r : ∀ n s pos,
  s ≠ Completed →
  pos ≤ String.length target →
  m target pos = Some r →
  endIndex r = pos →
  (execAll_pulls n target s
     {| matcher := m; global := true; sticky := st; lastIndex := pos |}).1.1
  = replicate n (exec_result target pos r).
Proof.
  induction n as [|n IH]; intros s pos Hs Hpos Hr He; [done|].
  cbn [execAll_pulls]. rewrite execAll_next_global by done.
  rewrite (search_here m st target pos r) by done.
  rewrite He. specialize (IH SuspendedYield pos).
  destruct (execAll_pulls n target SuspendedYield _) as [[rest s2] R2].
  simpl in *. by rewrite IH.
Qed.

(** X5: when [exec] on a global pattern finds an empty match (the first
    match at or after the cursor, which for a sticky pattern is a match at
    the cursor itself), the generator never ends: the cursor moves to the
    match and stays there, every pull yields that same match, and no
    number of pulls reaches the end of the sequence. *)
Theorem execAll_empty_match_never_ends regexp target i r n fuel :
  global regexp = true →
  lastIndex regexp ≤ i ≤ String.length target →
  (sticky regexp = true → i = lastIndex regexp) →
  (∀ k, lastIndex regexp ≤ k < i → matcher regexp target k = None) →
  matcher regexp target i = Some r →
  endIndex r = i →
  (execAll_pulls n target SuspendedStart regexp).1.1
  = replicate n (exec_result target i r)
  ∧ execAll fuel regexp target = None.
Proof.
  intros Hglobal Hi Hsticky Hbefore Hr He.
  destruct regexp as [m g st cursor].
  cbn [global sticky lastIndex matcher] in *. subst g.
  assert (search m target cursor (exec_tries st (String.length target) cursor)
          = Some (i, r)) as Hsearch.
  { apply search_first; [|done|done]. unfold exec_tries.
    destruct st; [rewrite (Hsticky eq_refl) in *|]; lia. }
  split.
  - destruct n as [|n]; [done|].
    cbn [execAll_pulls]. rewrite execAll_next_global, Hsearch by done.
    rewrite He.
    pose proof (execAll_pulls_stuck m st target r n SuspendedYield i) as Hn.
    destruct (execAll_pulls n target SuspendedYield _) as [[rest s2] R2].
    simpl in *. rewrite Hn; [done|done|lia|done|done].
  - destruct fuel as [|fuel]; [done|].
    unfold execAll. cbn [execAll_run].
    rewrite execAll_next_global, Hsearch by done.
    rewrite He. by rewrite (execAll_run_stuck m st target r) by (done || lia).
Qed.

Lemma execAll_empty_match_never_ends_witness :
  (execAll_pulls 3 "ab" SuspendedStart (sample_regexp "" true 1)).1.1
  = replicate 3 (exec_result "ab" 1 {| endIndex := 1; captures := [];
                                       named_groups := JUndefined |})
  ∧ execAll 7 (sample_regexp "" true 1) "ab" = None.
Proof.
  apply (execAll_empty_match_never_ends (sample_regexp "" true 1) "ab" 1
           {| endIndex := 1; captures := []; named_groups := JUndefined |}
           3 7).
  - reflexivity.
  - simpl. lia.
  - discriminate.
  - intros k Hk. simpl in Hk. lia.
  - reflexivity.
  - reflexivity.
Defined.

(** A run of a global pattern without the sticky flag that has ended has
    yielded the occurrences found from its cursor. *)
Lemma execAll_run_global_occurrences m target : ∀ fuel f pos s results R',
  (∀ i r, m target i = Some r → i ≤ endIndex r) →
  s ≠ Completed →
  String.length target + 1 ≤ f + pos →
  execAll_run fuel target s
    {| matcher := m; global := true; sticky := false; lastIndex := pos |}
  = Some (results, R') →
  results = occurrences_from m target f pos.
Proof.
  induction fuel as [|fuel IH]; intros f pos s results R' Hwf Hs Hf Hrun;
    [done|].
  cbn [execAll_run] in Hrun. rewrite execAll_next_global in Hrun by done.
  unfold exec_tries in Hrun.
  destruct (search _ _ _ _) as [[i r]|] eqn:Hsearch.
  - destruct (execAll_run fuel target _ _) as [[rest R2]|] eqn:Hrest; [|done].
    injection Hrun as <- <-.
    pose proof (search_Some _ _ _ _ _ _ Hsearch) as [Hi Hr].
    destruct f as [|f]; [lia|]. simpl. rewrite Hsearch.
    pose proof (Hwf i r Hr) as Hle.
    destruct (decide (endIndex r = i)) as [He|Hne].
    + rewrite He in Hrest.
      rewrite (execAll_run_stuck m false target r) in Hrest by (done || lia).
      done.
    + destruct (Nat.leb_spec (endIndex r) i) as [|_]; [lia|].
      f_equal.
      eapply (IH f (endIndex r) SuspendedYield); [done|done|lia|exact Hrest].
  - injection Hrun as <- <-. destruct f as [|f]; [done|].
    simpl. by rewrite Hsearch.
Qed.

(** X6: whenever the run of a global pattern without the sticky flag that
    started with its cursor at 0 has ended, it has yielded exactly the
    occurrences of the pattern in the target, in increasing order of their
    positions (the matcher never ends a match before its start). *)
Theorem execAll_ended_global regexp target fuel results regexp' :
  global regexp = true →
  sticky regexp = false →
  lastIndex regexp = 0 →
  (∀ i r, matcher regexp target i = Some r → i ≤ endIndex r) →
  execAll fuel regexp target = Some (results, regexp') →
  results = occurrences regexp target
  ∧ StronglySorted (λ a b, index a < index b) results.
Proof.
  intros Hglobal Hsticky Hcursor Hwf Hrun.
  destruct regexp as [m g st cursor].
  cbn [global sticky lastIndex matcher] in *. subst.
  assert (results = occurrences_from m target (S (String.length target)) 0)
    as ->.
  { eapply (execAll_run_global_occurrences m target fuel _ 0 SuspendedStart);
      [done|done|lia|exact Hrun]. }
  split; [done|]. apply occurrences_from_sorted.
Qed.

Lemma execAll_ended_global_witness :
  [exec_result "aba" 0 {| endIndex := 1; captures := [];
                          named_groups := JUndefined |};
   exec_result "aba" 2 {| endIndex := 3; captures := [];
                          named_groups := JUndefined |}]
  = occurrences (sample_regexp "a" true 0) "aba"
  ∧ StronglySorted (λ a b, index a < index b)
      [exec_result "aba" 0 {| endIndex := 1; captures := [];
                              named_groups := JUndefined |};
       exec_result "aba" 2 {| endIndex := 3; captures := [];
                              named_groups := JUndefined |}].
Proof.
  apply (execAll_ended_global (sample_regexp "a" true 0) "aba" 3 _
           (sample_regexp "a" true 0)).
  - reflexivity.
  - reflexivity.
  - reflexivity.
  - intros i r. unfold sample_regexp, literal. simpl.
    destruct (String.eqb _ _); [|done]. intros [= <-]. simpl. lia.
  - vm_compute. reflexivity.
Defined.

(** X7: a global pattern without the sticky flag whose cursor is at a
    position p, when none of the occurrences found by scanning from p is
    empty, yields exactly these occurrences, so those that start before p
    are skipped; then the generator ends and the cursor is back at 0. *)
Theorem execAll_global_from_cursor regexp target fuel :
  global regexp = true →
  sticky regexp = false →
  Forall (λ result, ∀ r, matcher regexp target (index result) = Some r →
                         index result < endIndex r)
         (occurrences_from (matcher regexp) target
                           (S (String.length target)) (lastIndex regexp)) →
  length (occurrences_from (matcher regexp) target
                           (S (String.length target)) (lastIndex regexp))
    < fuel →
  execAll fuel regexp target
  = Some (occurrences_from (matcher regexp) target
                           (S (String.length target)) (lastIndex regexp),
          set_lastIndex 0 regexp)
  ∧ Forall (λ result, lastIndex regexp ≤ index result)
           (occurrences_from (matcher regexp) target
                             (S (String.length target)) (lastIndex regexp)).
Proof.
  intros Hglobal Hsticky Hnonempty Hfuel. split.
  - destruct regexp as [m g st cursor].
    cbn [global sticky matcher lastIndex] in *. subst.
    unfold execAll.
    apply (execAll_run_global m target (S (String.length target)));
      [done|done|lia|done].
  - apply occurrences_from_sorted.
Qed.

Lemma execAll_global_from_cursor_witness :
  execAll 3 (sample_regexp "a" true 1) "abaa"
  = Some (occurrences_from (matcher (sample_regexp "a" true 1)) "abaa"
                           (S (String.length "abaa"))
                           (lastIndex (sample_regexp "a" true 1)),
          set_lastIndex 0 (sample_regexp "a" true 1))
  ∧ Forall (λ result, lastIndex (sample_regexp "a" true 1) ≤ index result)
           (occurrences_from (matcher (sample_regexp "a" true 1)) "abaa"
                             (S (String.length "abaa"))
                             (lastIndex (sample_regexp "a" true 1))).
Proof.
  apply (execAll_global_from_cursor (sample_regexp "a" true 1) "abaa" 3).
  - reflexivity.
  - reflexivity.
  - apply Forall_forall. intros result _ r.
    unfold sample_regexp, literal. simpl.
    destruct (String.eqb _ _); [|done]. intros [= <-]. simpl. lia.
  - vm_compute. lia.
Defined.

(** X8: [groups] on the result of [exec] for a target without any
    occurrence of the pattern returns [null] and throws nothing, also for
    a pattern without named groups. *)
Theorem groups_of_exec_no_match regexp target st :
  occurrences regexp target = [] →
  groups (exec regexp target).1 st = (Normal JNull, st).
Proof.
  intros Hnone. apply occurrences_nil in Hnone. unfold exec.
  by rewrite (search_no_occurrence _ _ _ _ Hnone (exec_tries_le _ _ _)).
Qed.

Lemma groups_of_exec_no_match_witness :
  groups (exec (sample_regexp "a" true 2) "bbb").1 (sample_state sample_groups)
  = (Normal JNull, sample_state sample_groups).
Proof.
  apply (groups_of_exec_no_match (sample_regexp "a" true 2) "bbb"
                                 (sample_state sample_groups)).
  vm_compute. reflexivity.
Defined.

Lemma exec_global R target o R1 :
  exec R target = (o, R1) → global R1 = global R.
Proof.
  intros Hexec. apply exec_spec in Hexec.
  destruct o as [result|].
  - destruct Hexec as (i & r & _ & _ & _ & _ & ->).
    by destruct (global R || sticky R).
  - subst. by destruct (global R || sticky R).
Qed.

(** X17: a sticky pattern, global or not, that does not match at its
    cursor (or whose cursor is beyond the end of the target) yields
    nothing, whatever the target contains elsewhere, and its cursor goes
    back to 0. *)
Theorem execAll_sticky_no_match_at_cursor regexp target fuel :
  sticky regexp = true →
  String.length target < lastIndex regexp
  ∨ matcher regexp target (lastIndex regexp) = None →
  execAll (S fuel) regexp target = Some ([], set_lastIndex 0 regexp).
Proof.
  intros Hsticky Hcursor.
  unfold execAll, execAll_run, execAll_next, exec.
  rewrite Hsticky, orb_true_r.
  rewrite (proj2 (search_None _ _ _ _)); [done|].
  unfold exec_tries. intros i Hi.
  destruct Hcursor as [Hlen|Hnone]; [lia|].
  by replace i with (lastIndex regexp) by lia.
Qed.

Lemma execAll_sticky_no_match_at_cursor_witness :
  execAll 1 (sample_sticky_regexp "a" true 1) "aba"
  = Some ([], set_lastIndex 0 (sample_sticky_regexp "a" true 1)).
Proof.
  apply (execAll_sticky_no_match_at_cursor
           (sample_sticky_regexp "a" true 1) "aba" 0).
  - reflexivity.
  - right. reflexivity.
Defined.

(** X18: for a pattern that is not global, sticky or not, the generator
    ends by its second pull and yields at most one result: the result of
    one call of [exec], when there is one; the pattern is left as that
    call left it. *)
Theorem execAll_non_global_single regexp target fuel :
  global regexp = false →
  ∃ results,
    execAll (S (S fuel)) regexp target
    = Some (results, (exec regexp target).2)
    ∧ length results ≤ 1
    ∧ head results = (exec regexp target).1.
Proof.
  intros Hglobal. unfold execAll. cbn [execAll_run].
  unfold execAll_next at 1.
  destruct (exec regexp target) as [[result|] R1] eqn:Hexec.
  - exists [result]. split; [|split; [simpl; lia|done]].
    unfold execAll_next.
    by rewrite (exec_global _ _ _ _ Hexec), Hglobal.
  - exists []. split; [done|]. split; [simpl; lia|done].
Qed.

Lemma execAll_non_global_single_witness :
  ∃ results,
    execAll 2 (sample_sticky_regexp "a" false 0) "aa"
    = Some (results, (exec (sample_sticky_regexp "a" false 0) "aa").2)
    ∧ length results ≤ 1
    ∧ head results = (exec (sample_sticky_regexp "a" false 0) "aa").1.
Proof.
  apply (execAll_non_global_single (sample_sticky_regexp "a" false 0) "aa" 0).
  reflexivity.
Defined.

(** ** More on the capture adapter *)

Lemma enumerable_define_all l idx (props : gmap string Property) :
  (∀ i, i < length l → props !! ToPropertyKey (idx + i) = None) →
  filter (λ kp, enumerable kp.2 = true) (define_all l idx props)
  = filter (λ kp, enumerable kp.2 = true) props.
Proof.
  intros Hfree. apply map_eq. intros k.
  rewrite !map_lookup_filter, define_all_lookup.
  destruct (list_find _ _) as [[i j]|] eqn:Hfind; [|done].
  apply list_find_Some in Hfind as (Hj & -> & _).
  apply lookup_seq in Hj as [-> Hlt]. simpl in *.
  destruct (lookup_lt_is_Some_2 l i Hlt) as [v Hv].
  rewrite Hv, Hfree by done. done.
Qed.

Lemma enumerable_data_properties (entries : gmap string JsVal) :
  value <$> filter (λ kp, enumerable kp.2 = true) (data_property <$> entries)
  = entries.
Proof.
  apply map_eq. intros k.
  rewrite lookup_fmap, map_lookup_filter, lookup_fmap.
  by destruct (entries !! k).
Qed.

(** X9: in the capture object the replacer receives, a positional key is
    writable and configurable but not enumerable, while a named key is
    writable, configurable and enumerable. *)
Theorem named_property_attributes replacer m st :
  (∀ i, i ≤ length (rm_captures m) →
        named_entries m (heap st) !! ToPropertyKey i = None) →
  ∃ c cobj st1,
    named replacer (replace_args m) st
    = call_replacer replacer (JRef c) (JNumber (rm_position m))
                    (JString (rm_subject m)) st1
    ∧ heap st1 !! c = Some cobj
    ∧ (∀ i v, positional_values m !! i = Some v →
              own cobj !! ToPropertyKey i
              = Some {| value := v; writable := true;
                        enumerable := false; configurable := true |})
    ∧ (∀ k v, named_entries m (heap st) !! k = Some v →
              own cobj !! k
              = Some {| value := v; writable := true;
                        enumerable := true; configurable := true |}).
Proof.
  intros Hfree. unfold named.
  eexists _, _, _. split; [by apply named_replace_free|].
  split; [apply heap_set_heap_insert|].
  unfold capture_object. cbn [own]. split.
  - intros i v Hi.
    change (ToPropertyKey i) with (ToPropertyKey (0 + i)).
    by rewrite (define_all_lookup_index _ 0 _ i v Hi).
  - intros k v Hk. rewrite define_all_lookup_other.
    + by rewrite lookup_fmap, Hk.
    + intros i Hi ->. simpl in Hi. rewrite Hfree in Hk; [done|lia].
Qed.

Lemma named_property_attributes_witness :
  ∃ c cobj st1,
    named sample_replacer (replace_args (sample_replacement (Some 0)))
          (sample_state sample_groups)
    = call_replacer sample_replacer (JRef c)
        (JNumber (rm_position (sample_replacement (Some 0))))
        (JString (rm_subject (sample_replacement (Some 0)))) st1
    ∧ heap st1 !! c = Some cobj
    ∧ (∀ i v, positional_values (sample_replacement (Some 0)) !! i = Some v →
              own cobj !! ToPropertyKey i
              = Some {| value := v; writable := true;
                        enumerable := false; configurable := true |})
    ∧ (∀ k v, named_entries (sample_replacement (Some 0))
                            (heap (sample_state sample_groups)) !! k = Some v →
              own cobj !! k
              = Some {| value := v; writable := true;
                        enumerable := true; configurable := true |}).
Proof.
  apply (named_property_attributes sample_replacer
           (sample_replacement (Some 0)) (sample_state sample_groups)).
  intros i Hi. simpl in Hi.
  destruct i as [|[|i]]; [vm_compute; reflexivity|vm_compute; reflexivity|lia].
Defined.

(** X10: the enumerable entries of the capture object the replacer
    receives are the named entries, no more and no less: enumerating the
    object shows the named captures and none of the positional ones. *)
Theorem named_enumerable_entries replacer m st :
  (∀ i, i ≤ length (rm_captures m) →
        named_entries m (heap st) !! ToPropertyKey i = None) →
  ∃ c st1,
    named replacer (replace_args m) st
    = call_replacer replacer (JRef c) (JNumber (rm_position m))
                    (JString (rm_subject m)) st1
    ∧ own_enumerable (JRef c) (heap st1) = named_entries m (heap st).
Proof.
  intros Hfree. unfold named.
  eexists _, _. split; [by apply named_replace_free|].
  unfold own_enumerable at 1. rewrite heap_set_heap_insert.
  unfold capture_object. cbn [own].
  rewrite enumerable_define_all; [apply enumerable_data_properties|].
  intros i Hi. simpl in Hi. rewrite lookup_fmap, Hfree; [done|lia].
Qed.

Lemma named_enumerable_entries_witness :
  ∃ c st1,
    named sample_replacer (replace_args (sample_replacement (Some 0)))
          (sample_state sample_groups)
    = call_replacer sample_replacer (JRef c)
        (JNumber (rm_position (sample_replacement (Some 0))))
        (JString (rm_subject (sample_replacement (Some 0)))) st1
    ∧ own_enumerable (JRef c) (heap st1)
      = named_entries (sample_replacement (Some 0))
                      (heap (sample_state sample_groups)).
Proof.
  apply (named_enumerable_entries sample_replacer
           (sample_replacement (Some 0)) (sample_state sample_groups)).
  intros i Hi. simpl in Hi.
  destruct i as [|[|i]]; [vm_compute; reflexivity|vm_compute; reflexivity|lia].
Defined.

(** X11: for any list of arguments that are primitive values or
    references to ordinary objects holding data properties only, the only
    effect of the wrapper itself on the heap is the allocation of one
    object without prototype: it either calls the replacer on the initial
    heap extended with that object, or throws the collision [RangeError]
    with the heap extended in the same way; no object that existed before,
    the named-captures object included, is modified. *)
Theorem named_only_allocates replacer args st :
  ∃ c cobj,
    heap st !! c = None
    ∧ proto cobj = ProtoNull
    ∧ ((∃ index original,
          named replacer args st
          = call_replacer replacer (JRef c) index original
                          (set_heap (insert c cobj) st))
       ∨ (∃ j,
            named replacer args st
            = (Throw (RangeError (collision_message j)),
               set_heap (insert c cobj) st))).
Proof.
  unfold named. exists (fresh (dom (heap st))).
  destruct (String.eqb (typeof (array_get args (Z.of_nat (length args) - 1)))
                       "string") eqn:Hty.
  - destruct (array_get args (Z.of_nat (length args) - 1)) as [| | | |s|]
      eqn:Hnamed; try (vm_compute in Hty; discriminate Hty).
    eexists. split; [apply fresh_heap|]. split; [|left; eexists _, _].
    2: by apply wrapper_string, trailing_string. done.
  - destruct (first_collision
                (own_enumerable (array_get args (Z.of_nat (length args) - 1))
                                (heap st))
                (length (Array_slice args 0 (-3))))
      as [Hfree|(j & Hj & Hfree & Hcol)].
    + eexists. split; [apply fresh_heap|]. split; [|left; eexists _, _].
      2: by apply wrapper_named_free. done.
    + eexists. split; [apply fresh_heap|]. split; [|right; exists j].
      2: by apply wrapper_named_collision. done.
Qed.

(** X12: the [RangeError] names the smallest positional index that is a
    named key. *)
Theorem named_collision_message replacer m st j :
  j ≤ length (rm_captures m) →
  (∀ i, i < j → named_entries m (heap st) !! ToPropertyKey i = None) →
  is_Some (named_entries m (heap st) !! ToPropertyKey j) →
  ∃ st',
    named replacer (replace_args m) st
    = (Throw (RangeError ("Numeric name " +:+ pretty j
                          +:+ " used as a regexp capture name")), st')
    ∧ calls st' = calls st.
Proof.
  intros Hj Hfree Hcol. unfold named. eexists. split.
  - by apply named_replace_collision.
  - done.
Qed.

Lemma named_collision_message_witness :
  ∃ st',
    named sample_replacer (replace_args (sample_replacement (Some 0)))
          (sample_state colliding_groups)
    = (Throw (RangeError ("Numeric name " +:+ pretty 1
                          +:+ " used as a regexp capture name")), st')
    ∧ calls st' = calls (sample_state colliding_groups).
Proof.
  apply (named_collision_message sample_replacer (sample_replacement (Some 0))
                                 (sample_state colliding_groups) 1).
  - simpl. lia.
  - intros i Hi. destruct i as [|i]; [vm_compute; reflexivity|lia].
  - vm_compute. eexists. reflexivity.
Defined.

(** ** The build script *)

Lemma js_extension_here_spec s :
  js_extension_here s = true ↔
  ∃ post, s = ".js" +:+ post ∧ (post = "" ∨ ∃ post', post = "." +:+ post').
Proof.
  split.
  - destruct s as [|a [|b [|c rest]]]; simpl; try done.
    rewrite !andb_true_iff. intros [[[Ha Hb] Hc] Hrest].
    apply Ascii.eqb_eq in Ha, Hb, Hc. subst. exists rest. split; [done|].
    destruct rest as [|d rest]; [by left|right].
    apply Ascii.eqb_eq in Hrest. subst. by exists rest.
  - intros (post & -> & [->|[post' ->]]); done.
Qed.

Lemma rename_js_here post :
  post = "" ∨ (∃ post', post = "." +:+ post') →
  rename_js (".js" +:+ post) = ".mjs" +:+ post.
Proof. intros [->|[post' ->]]; done. Qed.

Lemma rename_js_step c name :
  js_extension_here (String c name) = false →
  rename_js (String c name) = String c (rename_js name).
Proof. intros H. cbn [rename_js]. by rewrite H. Qed.

Lemma js_extension_here_dot c name :
  c ≠ "."%char → js_extension_here (String c name) = false.
Proof.
  intros Hc. destruct name as [|b [|d rest]]; try done. simpl.
  by rewrite (proj2 (Ascii.eqb_neq c ".") Hc).
Qed.

(** X13: whenever the new name of a file differs from its name, the name
    had ".js" followed by its end or by a dot, and the new name is the
    name with ".mjs" in place of that ".js": one character longer, the
    rest untouched. *)
Theorem rename_js_changed name :
  rename_js name ≠ name →
  ∃ pre post,
    name = pre +:+ ".js" +:+ post
    ∧ (post = "" ∨ ∃ post', post = "." +:+ post')
    ∧ rename_js name = pre +:+ ".mjs" +:+ post.
Proof.
  induction name as [|c name IH]; intros Hchanged; [done|].
  destruct (js_extension_here (String c name)) eqn:Hhere.
  - apply js_extension_here_spec in Hhere as (post & Heq & Hpost).
    exists "", post. rewrite Heq. split; [done|]. split; [done|].
    by apply rename_js_here.
  - rewrite rename_js_step in * by done.
    destruct IH as (pre & post & -> & Hpost & Hrename); [congruence|].
    exists (String c pre), post. split; [done|]. split; [done|].
    simpl. by rewrite Hrename.
Qed.

Lemma rename_js_changed_witness :
  ∃ pre post,
    "index.js.map" = pre +:+ ".js" +:+ post
    ∧ (post = "" ∨ ∃ post', post = "." +:+ post')
    ∧ rename_js "index.js.map" = pre +:+ ".mjs" +:+ post.
Proof.
  apply (rename_js_changed "index.js.map"). vm_compute. discriminate.
Defined.

Lemma rename_js_length_here name :
  js_extension_here name = true →
  String.length (rename_js name) = S (String.length name).
Proof.
  intros Hhere.
  pose proof (proj1 (js_extension_here_spec name) Hhere) as (post & -> & Hpost).
  by rewrite rename_js_here.
Qed.

(** X14: a name that has ".js" followed by its end or by a dot, anywhere,
    gets a new name that is one character longer, hence different: the
    file is in the queue of renames. *)
Theorem rename_js_renames pre post :
  post = "" ∨ (∃ post', post = "." +:+ post') →
  String.length (rename_js (pre +:+ ".js" +:+ post))
  = S (String.length (pre +:+ ".js" +:+ post))
  ∧ rename_js (pre +:+ ".js" +:+ post) ≠ pre +:+ ".js" +:+ post.
Proof.
  intros Hpost.
  assert (String.length (rename_js (pre +:+ ".js" +:+ post))
          = S (String.length (pre +:+ ".js" +:+ post))) as Hlen.
  { induction pre as [|c pre IH].
    - change ("" +:+ ".js" +:+ post) with (".js" +:+ post).
      by rewrite rename_js_here.
    - change (String c pre +:+ ".js" +:+ post)
        with (String c (pre +:+ ".js" +:+ post)).
      destruct (js_extension_here (String c (pre +:+ ".js" +:+ post)))
        eqn:Hhere.
      + by apply rename_js_length_here.
      + rewrite rename_js_step by done. simpl. by rewrite IH. }
  split; [done|]. intros Heq. rewrite Heq in Hlen. lia.
Qed.

Lemma rename_js_renames_witness :
  String.length (rename_js ("a.js" +:+ ".js" +:+ ""))
  = S (String.length ("a.js" +:+ ".js" +:+ ""))
  ∧ rename_js ("a.js" +:+ ".js" +:+ "") ≠ "a.js" +:+ ".js" +:+ "".
Proof.
  apply (rename_js_renames "a.js" "").
  left. reflexivity.
Defined.

(** X15: for a stem without a dot, the file "stem.js" is renamed to
    "stem.mjs", and "stem.js" followed by further extensions, such as
    "stem.js.map", to "stem.mjs" followed by the same extensions. *)
Theorem rename_js_extension stem post :
  "."%char ∉ list_ascii_of_string stem →
  post = "" ∨ (∃ post', post = "." +:+ post') →
  rename_js (stem +:+ ".js" +:+ post) = stem +:+ ".mjs" +:+ post.
Proof.
  intros Hstem Hpost. induction stem as [|c stem IH].
  - by apply (rename_js_here post).
  - simpl in Hstem. apply not_elem_of_cons in Hstem as [Hc Hstem].
    change (String c stem +:+ ".js" +:+ post)
      with (String c (stem +:+ ".js" +:+ post)).
    rewrite rename_js_step by (apply js_extension_here_dot; congruence).
    by rewrite IH.
Qed.

Lemma rename_js_extension_witness :
  rename_js ("index" +:+ ".js" +:+ ".map") = "index" +:+ ".mjs" +:+ ".map".
Proof.
  apply (rename_js_extension "index" ".map").
  - vm_compute. intros H. repeat (apply elem_of_cons in H as [H|H]; [discriminate H|]).
    by apply elem_of_nil in H.
  - right. by exists "map".
Defined.

(** X16: for a stem without a dot, the names "stem.mjs" and
    "stem.mjs.map" are left as they are: a file that has been renamed is
    not renamed again. *)
Theorem rename_js_renamed_unchanged stem :
  "."%char ∉ list_ascii_of_string stem →
  rename_js (stem +:+ ".mjs") = stem +:+ ".mjs"
  ∧ rename_js (stem +:+ ".mjs.map") = stem +:+ ".mjs.map".
Proof.
  intros Hstem. induction stem as [|c stem IH].
  - split; reflexivity.
  - simpl in Hstem. apply not_elem_of_cons in Hstem as [Hc Hstem].
    destruct (IH Hstem) as [IH1 IH2].
    change (String c stem +:+ ".mjs") with (String c (stem +:+ ".mjs")).
    change (String c stem +:+ ".mjs.map")
      with (String c (stem +:+ ".mjs.map")).
    rewrite !rename_js_step by (apply js_extension_here_dot; congruence).
    by rewrite IH1, IH2.
Qed.

Lemma rename_js_renamed_unchanged_witness :
  rename_js ("index" +:+ ".mjs") = "index" +:+ ".mjs"
  ∧ rename_js ("index" +:+ ".mjs.map") = "index" +:+ ".mjs.map".
Proof.
  apply (rename_js_renamed_unchanged "index").
  vm_compute. intros H. repeat (apply elem_of_cons in H as [H|H]; [discriminate H|]).
  by apply elem_of_nil in H.
Defined.
